(** * The BSON [Binary] type of lib/tbinary.js, embedded in Rocq

    The source is a JavaScript constructor [Binary] with the methods
    [put], [write], [read], [value], [length] and [toJSON] on its
    prototype.  An instance has three fields: [sub_type], [buffer] and
    [position].

    Conventions of the embedding.
    - JavaScript numbers are modelled by [Z]: only integer numbers are
      covered (no NaN, no fractions, no infinities), of a magnitude at
      which JavaScript computes and prints them exactly.
    - A JavaScript string is the list of its UTF-16 code units.
    - The backing store is a Node [Buffer], a [Uint8Array], a plain
      [Array] (whose slots may be holes) or [null]; the source tells
      them apart with [Buffer.isBuffer] and by the way element
      assignment behaves.
    - A method that mutates the instance is a function in a small
      state-and-exception monad: it returns the outcome (a value or the
      exception thrown) together with the instance as the call left it.
    - [Buffer] comes from the package safe-buffer, which hands out Node's
      own [Buffer]; its operations are modelled after Node's
      documentation, each next to the place where the source calls it.
    - Not modelled: the sharing of memory between an instance and the
      sequence it was made from or the Buffer slices it returns. *)

From Stdlib Require Import ZArith List String Ascii Bool Lia DecimalString.
From stdpp Require Import base numbers list.

Local Open Scope Z_scope.

(** ** JavaScript values that reach the methods *)

(** UTF-16 code units. *)
Definition jsstring := list Z.

(** An ASCII literal as a JavaScript string. *)
Definition lit (s : string) : jsstring :=
  (fun a => Z.of_N (N_of_ascii a)) <$> list_ascii_of_string s.

Inductive jsval :=
| VNull                      (* null or undefined, also an omitted argument *)
| VNum (n : Z)
| VStr (s : jsstring)
| VBuffer (bytes : list Z)
| VUint8 (bytes : list Z)
| VArray (elems : list Z).   (* a dense Array of integer numbers *)

(** The backing store, [this.buffer].  A slot of a plain Array that reads
    as [undefined] is [None]. *)
Inductive store :=
| SBuffer (bytes : list Z)
| SUint8 (bytes : list Z)
| SArray (elems : list (option Z))
| SNull.

Inductive exn :=
| TypeError (msg : string)
| RangeError (msg : string)
| Error (msg : string).

Record binary := mkBinary {
  sub_type : Z;
  buffer : store;
  position : Z
}.

(** What [value] returns: a string or a sequence. *)
Inductive retval :=
| RStr (s : jsstring)
| RSeq (s : store).

Abbreviation len l := (Z.of_nat (length l)).

(** ** State and exception monad of the mutating methods *)

Definition M (A : Type) : Type := binary -> (exn + A) * binary.

Definition ret {A} (a : A) : M A := fun this => (inr a, this).
Definition throw {A} (e : exn) : M A := fun this => (inl e, this).
Definition bind {A B} (m : M A) (k : A -> M B) : M B :=
  fun this =>
    match m this with
    | (inr a, this') => k a this'
    | (inl e, this') => (inl e, this')
    end.
Definition get {A} (f : binary -> A) : M A := fun this => (inr (f this), this).
Definition set_buffer (st : store) : M unit :=
  fun this => (inr tt, mkBinary (sub_type this) st (position this)).
Definition set_position (p : Z) : M unit :=
  fun this => (inr tt, mkBinary (sub_type this) (buffer this) p).
Definition lift {A} (r : exn + A) : M A :=
  fun this => (r, this).

Notation "x <- m ;; k" := (bind m (fun x => k))
  (at level 100, m at next level, right associativity).
Notation "m ;;; k" := (bind m (fun _ => k))
  (at level 100, right associativity).

(** ** Primitives of the JavaScript run time and of Buffer *)

Definition BUFFER_SIZE : Z := 256.
Definition BSON_BINARY_SUBTYPE_DEFAULT : Z := 0.

(** ToUint8: what a Buffer or Uint8Array keeps of a number stored into it. *)
Definition to_uint8 (n : Z) : Z := n mod 256.
(** ToUint16, the conversion [String.fromCharCode] applies. *)
Definition to_uint16 (n : Z) : Z := n mod 65536.

Definition isBuffer (st : store) : bool :=
  match st with SBuffer _ => true | _ => false end.

(** [st.length]; reading a property of [null] throws. *)
Definition store_length (st : store) : exn + Z :=
  match st with
  | SBuffer l | SUint8 l => inr (len l)
  | SArray l => inr (len l)
  | SNull => inl (TypeError "Cannot read properties of null")
  end.

(** [st[i]] as a number, [None] when it reads as [undefined]. *)
Definition store_get (st : store) (i : Z) : option Z :=
  if i <? 0 then None else
  match st with
  | SBuffer l | SUint8 l => l !! Z.to_nat i
  | SArray l => mjoin (l !! Z.to_nat i)
  | SNull => None
  end.

(** [b[i] = v] on a Buffer or Uint8Array: the value is converted with
    ToUint8; an index outside the array is ignored. *)
Definition buf_set (l : list Z) (i v : Z) : list Z :=
  if i <? 0 then l else <[Z.to_nat i := to_uint8 v]> l.

(** [a[i] = v] on a plain Array: the value is kept as it is; an index at
    or past the length extends the array, the slots in between being
    holes.  (A negative index creates a property, not an element.) *)
Definition arr_set (l : list (option Z)) (i v : Z) : list (option Z) :=
  if i <? 0 then l
  else if i <? len l then <[Z.to_nat i := Some v]> l
  else l ++ replicate (Z.to_nat (i - len l)) None ++ [Some v].

(** [st[i] = v]. *)
Definition store_set (st : store) (i v : Z) : exn + store :=
  match st with
  | SBuffer l => inr (SBuffer (buf_set l i v))
  | SUint8 l => inr (SUint8 (buf_set l i v))
  | SArray l => inr (SArray (arr_set l i v))
  | SNull => inl (TypeError "Cannot set properties of null")
  end.

(** [src.copy(target, targetStart, 0, src.length)] (Buffer.prototype.copy):
    a negative [targetStart] is a RangeError; nothing is copied when
    [targetStart] is at or past the end of the target or the source is
    empty; otherwise as many bytes are copied as fit in the target. *)
Definition buf_copy (src target : list Z) (targetStart : Z) : exn + list Z :=
  if targetStart <? 0 then inl (RangeError "targetStart out of range")
  else if (len target <=? targetStart) || (len src =? 0) then inr target
  else
    let n := Z.min (len src) (len target - targetStart) in
    inr (take (Z.to_nat targetStart) target
           ++ take (Z.to_nat n) src
           ++ drop (Z.to_nat (targetStart + n)) target).

(** [target.write(string, 'binary', offset)], the call of line 155.
    Buffer.prototype.write takes its arguments in the order (string, offset,
    length, encoding): the call hands it the string 'binary' where the
    offset belongs and a number where the length belongs, and the offset is
    refused with a TypeError, whatever the string, the offset and the target
    are.  Nothing is written. *)
Definition buf_write_binary (target : list Z) (s : jsstring) (offset : Z)
  : exn + list Z :=
  inl (TypeError "The offset argument must be of type number").

(** [start] and [end] of [slice], made relative to the length: a negative
    index counts from the end, and both are clamped to [0, length]. *)
Definition rel_index (length i : Z) : Z :=
  if i <? 0 then Z.max (length + i) 0 else Z.min i length.

(** [l.slice(start, end)], the same on Buffer, Uint8Array and Array. *)
Definition slice {A} (l : list A) (start end_ : Z) : list A :=
  let k := rel_index (len l) start in
  let e := rel_index (len l) end_ in
  take (Z.to_nat (e - k)) (drop (Z.to_nat k) l).

Definition store_slice (st : store) (start end_ : Z) : exn + store :=
  match st with
  | SBuffer l => inr (SBuffer (slice l start end_))
  | SUint8 l => inr (SUint8 (slice l start end_))
  | SArray l => inr (SArray (slice l start end_))
  | SNull => inl (TypeError "Cannot read properties of null")
  end.

(** [buf.toString('binary', 0, end)]: one character per byte, the code unit
    being the byte; [end] is clamped to the length of the buffer. *)
Definition buf_toString_binary (l : list Z) (end_ : Z) : jsstring :=
  take (Z.to_nat end_) l.

(** [String.fromCharCode(x)] for a slot value, which may be [undefined]. *)
Definition fromCharCode (x : option Z) : Z :=
  match x with Some n => to_uint16 n | None => 0 end.

(** *** UTF-8, the default encoding of [new Buffer(string)] *)

Definition is_high_surrogate (c : Z) : bool := (0xD800 <=? c) && (c <=? 0xDBFF).
Definition is_low_surrogate (c : Z) : bool := (0xDC00 <=? c) && (c <=? 0xDFFF).

Definition utf8_code_point (cp : Z) : list Z :=
  if cp <? 0x80 then [cp]
  else if cp <? 0x800 then
    [Z.lor 0xC0 (Z.shiftr cp 6); Z.lor 0x80 (Z.land cp 0x3F)]
  else if cp <? 0x10000 then
    [Z.lor 0xE0 (Z.shiftr cp 12);
     Z.lor 0x80 (Z.land (Z.shiftr cp 6) 0x3F);
     Z.lor 0x80 (Z.land cp 0x3F)]
  else
    [Z.lor 0xF0 (Z.shiftr cp 18);
     Z.lor 0x80 (Z.land (Z.shiftr cp 12) 0x3F);
     Z.lor 0x80 (Z.land (Z.shiftr cp 6) 0x3F);
     Z.lor 0x80 (Z.land cp 0x3F)].

(** U+FFFD, written for a surrogate that has no partner. *)
Definition utf8_replacement : list Z := [0xEF; 0xBF; 0xBD].

Fixpoint utf8_encode (s : jsstring) : list Z :=
  match s with
  | [] => []
  | c :: t =>
    if is_high_surrogate c then
      match t with
      | d :: t' =>
        if is_low_surrogate d
        then utf8_code_point (0x10000 + (c - 0xD800) * 0x400 + (d - 0xDC00))
               ++ utf8_encode t'
        else utf8_replacement ++ utf8_encode t
      | [] => utf8_replacement
      end
    else if is_low_surrogate c then utf8_replacement ++ utf8_encode t
    else utf8_code_point c ++ utf8_encode t
  end.

(** *** base64, the encoding of [buf.toString('base64')] *)

Definition base64_alphabet : jsstring :=
  lit "ABCDEFGHIJKLMNOPQRSTUVWXYZabcdefghijklmnopqrstuvwxyz0123456789+/".

Definition base64_char (i : Z) : Z := nth (Z.to_nat i) base64_alphabet 0.

(** Code unit of the padding character. *)
Definition base64_pad : Z := 61.

(** The four 6-bit groups of three bytes [a], [b], [c]. *)
Definition sextet1 (a : Z) : Z := Z.shiftr a 2.
Definition sextet2 (a b : Z) : Z := Z.lor (Z.shiftl (Z.land a 3) 4) (Z.shiftr b 4).
Definition sextet3 (b c : Z) : Z := Z.lor (Z.shiftl (Z.land b 15) 2) (Z.shiftr c 6).
Definition sextet4 (c : Z) : Z := Z.land c 63.

(** A last group of one or two bytes is filled up with zero bits and
    padded. *)
Fixpoint base64_encode (l : list Z) : jsstring :=
  match l with
  | [] => []
  | [a] =>
    [base64_char (sextet1 a); base64_char (sextet2 a 0);
     base64_pad; base64_pad]
  | [a; b] =>
    [base64_char (sextet1 a); base64_char (sextet2 a b);
     base64_char (sextet3 b 0); base64_pad]
  | a :: b :: c :: t =>
    base64_char (sextet1 a) :: base64_char (sextet2 a b)
      :: base64_char (sextet3 b c) :: base64_char (sextet4 c)
      :: base64_encode t
  end.

(** Reading base64 back, to say what an encoding holds. *)
Fixpoint index_of (c : Z) (l : list Z) : Z :=
  match l with
  | [] => 0
  | x :: t => if x =? c then 0 else 1 + index_of c t
  end.

Definition base64_index (c : Z) : Z := index_of c base64_alphabet.

Definition octet1 (i1 i2 : Z) : Z := Z.lor (Z.shiftl i1 2) (Z.shiftr i2 4).
Definition octet2 (i2 i3 : Z) : Z := Z.lor (Z.shiftl (Z.land i2 15) 4) (Z.shiftr i3 2).
Definition octet3 (i3 i4 : Z) : Z := Z.lor (Z.shiftl (Z.land i3 3) 6) i4.

Fixpoint base64_decode (s : jsstring) : list Z :=
  match s with
  | c1 :: c2 :: c3 :: c4 :: t =>
    let i1 := base64_index c1 in
    let i2 := base64_index c2 in
    let i3 := base64_index c3 in
    let i4 := base64_index c4 in
    if c3 =? base64_pad then [octet1 i1 i2]
    else if c4 =? base64_pad then [octet1 i1 i2; octet2 i2 i3]
    else octet1 i1 i2 :: octet2 i2 i3 :: octet3 i3 i4 :: base64_decode t
  | _ => []
  end.

(** *** [Array.prototype.toString], which joins the elements with commas;
    a Uint8Array inherits the same method.  It ignores its argument. *)

(** The decimal digits of an integer, with a minus sign when it is
    negative: what JavaScript prints for an integer of magnitude below
    10^21.  From 10^21 on JavaScript prints a number in exponent form; such
    elements are outside the numbers this development covers, and no
    statement below is about them. *)
Definition number_toString (n : Z) : jsstring :=
  lit (NilZero.string_of_int (Z.to_int n)).

Definition element_toString (x : option Z) : jsstring :=
  match x with Some n => number_toString n | None => [] end.

(** Code unit of the comma. *)
Definition comma : Z := 44.

Fixpoint join_comma (l : list jsstring) : jsstring :=
  match l with
  | [] => []
  | [x] => x
  | x :: t => x ++ comma :: join_comma t
  end.

(** The slots of a store, in the form a plain Array keeps them. *)
Definition store_elems (st : store) : list (option Z) :=
  match st with
  | SBuffer l | SUint8 l => Some <$> l
  | SArray l => l
  | SNull => []
  end.

(** [for (k = 0; k < vals.length; k++) st[offset++] = vals[k]], the loops of
    lines 159-161 and 165-167. *)
Fixpoint assign_loop (st : store) (offset : Z) (vals : list Z) : exn + store :=
  match vals with
  | [] => inr st
  | v :: vs =>
    match store_set st offset v with
    | inl e => inl e
    | inr st' => assign_loop st' (offset + 1) vs
    end
  end.

(** *** The argument of [put] *)

(** What is left of [byte_value] once line 73 has let it through: a number,
    or a string or sequence of exactly one element. *)
Inductive byte_arg :=
| ArgNum (n : Z)
| ArgChar (c : Z)
| ArgBuffer (b : Z)
| ArgUint8 (b : Z)
| ArgArray (n : Z).

Definition msg_single : string :=
  "only accepts single character String, Uint8Array or Array".
Definition msg_range : string :=
  "only accepts number in a valid unsigned byte range 0-255".

(** Line 73.  Reading [length] of [null] or [undefined] is a TypeError; a
    number has no [length]. *)
Definition single_element (byte_value : jsval) : exn + byte_arg :=
  match byte_value with
  | VNull => inl (TypeError "Cannot read properties of undefined")
  | VNum n => inr (ArgNum n)
  | VStr [c] => inr (ArgChar c)
  | VBuffer [b] => inr (ArgBuffer b)
  | VUint8 [b] => inr (ArgUint8 b)
  | VArray [n] => inr (ArgArray n)
  | VStr _ | VBuffer _ | VUint8 _ | VArray _ => inl (Error msg_single)
  end.

Definition is_white_space (c : Z) : bool :=
  bool_decide (c ∈ [9; 10; 11; 12; 13; 32; 160; 0x1680; 0x2028; 0x2029;
                     0x202F; 0x205F; 0x3000; 0xFEFF])
  || ((0x2000 <=? c) && (c <=? 0x200A)).

(** ToNumber of a string of one character; [None] is NaN. *)
Definition char_to_number (c : Z) : option Z :=
  if (48 <=? c) && (c <=? 57) then Some (c - 48)
  else if is_white_space c then Some 0
  else None.

(** The number the relational operators of line 74 compare: the argument
    itself, or ToNumber of its string form.  A Buffer prints as its UTF-8
    decoding (U+FFFD for a byte that is not ASCII), a Uint8Array and an
    Array as their elements joined by commas. *)
Definition arg_to_number (a : byte_arg) : option Z :=
  match a with
  | ArgNum n => Some n
  | ArgChar c => char_to_number c
  | ArgBuffer b => char_to_number (if b <? 128 then b else 0xFFFD)
  | ArgUint8 b => Some b
  | ArgArray n => Some n
  end.

Definition arg_isNumber (a : byte_arg) : bool :=
  match a with ArgNum _ => true | _ => false end.

(** [x < k] and [x > k]; a comparison with NaN is false. *)
Definition js_lt (x : option Z) (k : Z) : bool :=
  match x with Some n => n <? k | None => false end.
Definition js_gt (x : option Z) (k : Z) : bool :=
  match x with Some n => k <? n | None => false end.

(** The condition of line 74, with the precedence JavaScript gives it:
    [(!isNumber(v) && v < 0) || v > 255]. *)
Definition rejected_by_range_check (a : byte_arg) : bool :=
  (negb (arg_isNumber a) && js_lt (arg_to_number a) 0)
  || js_gt (arg_to_number a) 255.

(** Lines 77-84. *)
Definition decode_byte (a : byte_arg) : Z :=
  match a with
  | ArgNum n => n
  | ArgChar c => c
  | ArgBuffer b | ArgUint8 b => b
  | ArgArray n => n
  end.

(** [string.length] of the argument of [write]; [None] when the property
    is [undefined]. *)
Definition data_length (string : jsval) : exn + option Z :=
  match string with
  | VNull => inl (TypeError "Cannot read properties of undefined")
  | VNum _ => inr None
  | VStr s => inr (Some (len s))
  | VBuffer l | VUint8 l | VArray l => inr (Some (len l))
  end.

(** ** The constructor and the methods *)

Section Binary.

(** [new Buffer(n)] hands out memory that need not be cleared:
    [uninit i] stands for whatever sits at index [i] of it. *)
Variable uninit : Z -> Z.

Definition alloc (n : Z) : list Z :=
  (fun i => to_uint8 (uninit i)) <$> seqZ 0 n.

(** Lines 37-63.  [subType] is [None] when it is omitted or null.  A
    sequence given to the constructor becomes the store itself. *)
Definition Binary (buffer : jsval) (subType : option Z) : binary :=
  let sub_type :=
    match buffer with
    | VNum n => n
    | _ => match subType with None => BSON_BINARY_SUBTYPE_DEFAULT | Some t => t end
    end in
  match buffer with
  | VNull | VNum _ => mkBinary sub_type (SBuffer (alloc BUFFER_SIZE)) 0
  | VStr s => mkBinary sub_type (SBuffer (utf8_encode s)) (len s)
  | VBuffer l => mkBinary sub_type (SBuffer l) (len l)
  | VUint8 l => mkBinary sub_type (SUint8 l) (len l)
  | VArray l => mkBinary sub_type (SArray (Some <$> l)) (len l)
  end.

(** [this.buffer[this.position++] = decoded_byte]: the increment happens
    before the assignment is attempted. *)
Definition assign_at_position (decoded_byte : Z) : M unit :=
  buf <- get buffer ;;
  pos <- get position ;;
  set_position (pos + 1) ;;;
  buf' <- lift (store_set buf pos decoded_byte) ;;
  set_buffer buf'.

(** Lines 71-118. *)
Definition put (byte_value : jsval) : M unit :=
  a <- lift (single_element byte_value) ;;
  if rejected_by_range_check a then throw (Error msg_range) else
  let decoded_byte := decode_byte a in
  buf <- get buffer ;;
  length <- lift (store_length buf) ;;
  pos <- get position ;;
  if pos <? length then assign_at_position decoded_byte
  else
    match buf with
    | SBuffer old =>
      (* new Buffer(BUFFER_SIZE + length), then copy(buffer, 0, 0, length) *)
      buffer' <- lift (buf_copy old (alloc (BUFFER_SIZE + length)) 0) ;;
      set_buffer (SBuffer buffer') ;;;
      assign_at_position decoded_byte
    | _ =>
      (* new Array(BUFFER_SIZE + length): holes, the first [length] of which
         the loop of lines 108-110 fills from the old store *)
      set_buffer (SArray (store_elems buf ++ replicate (Z.to_nat BUFFER_SIZE) None)) ;;;
      assign_at_position decoded_byte
    end.

(** [this.position = end > this.position ? end : this.position]. *)
Definition advance_position (end_ : Z) : M unit :=
  pos <- get position ;;
  set_position (if pos <? end_ then end_ else pos).

(** Lines 127-171.  [offset] is [None] when it is not a number. *)
Definition write (string : jsval) (offset : option Z) : M unit :=
  pos <- get position ;;
  let offset := match offset with Some o => o | None => pos end in
  buf <- get buffer ;;
  length <- lift (store_length buf) ;;
  slen <- lift (data_length string) ;;
  match slen with
  | None => ret tt   (* offset + undefined is NaN: no test of the body holds *)
  | Some slen =>
    (if length <? offset + slen then
       match buf with
       | SBuffer old =>
         buffer' <- lift (buf_copy old (alloc (length + slen)) 0) ;;
         set_buffer (SBuffer buffer')
       | _ => set_buffer SNull   (* line 137 repeats the test of line 134 *)
       end
     else ret tt) ;;;
    buf <- get buffer ;;
    match string, buf with
    | VBuffer src, SBuffer target =>
      target' <- lift (buf_copy src target offset) ;;
      set_buffer (SBuffer target') ;;;
      advance_position (offset + slen)
    | VStr s, SBuffer target =>
      target' <- lift (buf_write_binary target s offset) ;;
      set_buffer (SBuffer target') ;;;
      advance_position (offset + slen)
    | VBuffer vals, _ | VArray vals, _ =>
      buf' <- lift (assign_loop buf offset vals) ;;
      set_buffer buf' ;;;
      advance_position (offset + slen)
    | VStr s, _ =>
      buf' <- lift (assign_loop buf offset s) ;;
      set_buffer buf' ;;;
      advance_position (offset + slen)
    | _, _ => ret tt
    end
  end.

End Binary.

(** Lines 181-199.  [length] is [None] when it is omitted.  Every store
    that is not null has a [slice] method, so lines 191-198 are reached by
    none of them; they are kept for the shape of the source. *)
Definition has_slice (st : store) : exn + bool :=
  match st with
  | SNull => inl (TypeError "Cannot read properties of null")
  | _ => inr true
  end.

Definition read (this : binary) (position_ : Z) (length : option Z) : exn + store :=
  let length :=
    match length with
    | Some l => if negb (l =? 0) && (0 <? l) then l else position this
    | None => position this
    end in
  match has_slice (buffer this) with
  | inl e => inl e
  | inr true => store_slice (buffer this) position_ (position_ + length)
  | inr false =>
    inr (SUint8 ((fun i => to_uint8 (default 0 (store_get (buffer this) (position_ + i))))
                   <$> seqZ 0 length))
  end.

(** Lines 13-19. *)
Definition convertArraytoUtf8BinaryString (byteArray : store) (startIndex endIndex : Z)
  : exn + jsstring :=
  match byteArray with
  | SNull =>
    if startIndex <? endIndex
    then inl (TypeError "Cannot read properties of null")
    else inr []
  | _ =>
    inr ((fun i => fromCharCode (store_get byteArray i))
           <$> seqZ startIndex (endIndex - startIndex))
  end.

(** Lines 207-232.  [asRaw] is [None] when it is omitted. *)
Definition value (this : binary) (asRaw : option bool) : exn + retval :=
  let asRaw := default false asRaw in
  match buffer this with
  | SBuffer l =>
    if asRaw then inr (RSeq (SBuffer (slice l 0 (position this))))
    else inr (RStr (buf_toString_binary l (position this)))
  | st =>
    if asRaw then
      match store_slice st 0 (position this) with
      | inl e => inl e
      | inr s => inr (RSeq s)
      end
    else
      match convertArraytoUtf8BinaryString st 0 (position this) with
      | inl e => inl e
      | inr s => inr (RStr s)
      end
  end.

(** Lines 240-242, the method [length]. *)
Definition Binary_length (this : binary) : Z := position this.

(** Lines 248-250. *)
Definition toJSON (this : binary) : jsstring :=
  match buffer this with
  | SNull => []
  | SBuffer l => base64_encode l
  | st => join_comma (element_toString <$> store_elems st)
  end.

(** The encodings of [buf.toString(format)] that are modelled: 'base64',
    'hex' and 'binary' (one character per byte).  Decoding as UTF-8, which
    an omitted format asks for, is not. *)
Inductive encoding := EncBase64 | EncHex | EncBinary.

Definition hex_digits : jsstring := lit "0123456789abcdef".

Definition hex_digit (d : Z) : Z := nth (Z.to_nat d) hex_digits 0.

(** Two hexadecimal digits per byte. *)
Definition hex_encode (l : list Z) : jsstring :=
  l ≫= (fun b => [hex_digit (Z.shiftr b 4); hex_digit (Z.land b 15)]).

Definition buf_toString (format : encoding) (l : list Z) : jsstring :=
  match format with
  | EncBase64 => base64_encode l
  | EncHex => hex_encode l
  | EncBinary => l
  end.

(** Lines 256-258: [this.buffer.slice(0, this.position).toString(format)].
    Only a Buffer takes the format; an Array or Uint8Array joins its
    elements with commas. *)
Definition toString (this : binary) (format : encoding) : jsstring :=
  match buffer this with
  | SNull => []
  | SBuffer l => buf_toString format (slice l 0 (position this))
  | SUint8 l => join_comma (element_toString <$> (Some <$> slice l 0 (position this)))
  | SArray l => join_comma (element_toString <$> slice l 0 (position this))
  end.

(** ** What the claims are measured against *)

(** The instances a program can hold: built by the constructor and changed
    by [put] and [write] only. *)
Inductive reachable (uninit : Z -> Z) : binary -> Prop :=
| reach_new buffer subType :
    reachable uninit (Binary uninit buffer subType)
| reach_put byte_value this :
    reachable uninit this -> reachable uninit (snd (put uninit byte_value this))
| reach_write string offset this :
    reachable uninit this -> reachable uninit (snd (write uninit string offset this)).

(** The length [read] works with, in the words of the specification: the
    argument when it is positive, the cursor otherwise. *)
Definition spec_read_length (this : binary) (length : option Z) : Z :=
  match length with
  | Some l => if 0 <? l then l else position this
  | None => position this
  end.

(** The store with its first [n] slots dropped. *)
Definition store_drop (n : nat) (st : store) : store :=
  match st with
  | SBuffer l => SBuffer (drop n l)
  | SUint8 l => SUint8 (drop n l)
  | SArray l => SArray (drop n l)
  | SNull => SNull
  end.

(** The requested window [position, position + length) of a [read] reaches
    past the capacity of the store. *)
Definition window_past_capacity (this : binary) (position_ : Z) (length : option Z) : Prop :=
  exists capacity,
    store_length (buffer this) = inr capacity
    /\ capacity < position_ + spec_read_length this length.

(** *** Stores and data that the proofs name *)

(** The store [put] continues with when the old one is full. *)
Definition put_grown (uninit : Z -> Z) (st : store) : store :=
  match st with
  | SBuffer old =>
    SBuffer (old ++ drop (length old) (alloc uninit (BUFFER_SIZE + len old)))
  | _ => SArray (store_elems st ++ replicate (Z.to_nat BUFFER_SIZE) None)
  end.

(** The store [write] continues with: the old one, or a new one that is
    longer by the length of the data when the data does not fit. *)
Definition write_grown (uninit : Z -> Z) (old : list Z) (offset n : Z) : list Z :=
  if len old <? offset + n
  then old ++ drop (length old) (alloc uninit (len old + n))
  else old.

(** [l] with [bytes] laid over it from [offset] on. *)
Definition splice (l : list Z) (offset : Z) (bytes : list Z) : list Z :=
  take (Z.to_nat offset) l ++ bytes ++ drop (Z.to_nat (offset + len bytes)) l.

(** The bytes a Buffer receives from the argument of [write]: those of a
    Buffer, or the numbers of an Array modulo 256.  From a string it
    receives none, line 155 raises. *)
Definition data_bytes (string : jsval) : option (list Z) :=
  match string with
  | VBuffer l => Some l
  | VArray l => Some (to_uint8 <$> l)
  | _ => None
  end.

(** The numbers that the loops of lines 159-161 and 165-167 assign: the
    elements of a Buffer or an Array, or the character codes of a string. *)
Definition data_elems (string : jsval) : option (list Z) :=
  match string with
  | VBuffer l | VArray l | VStr l => Some l
  | _ => None
  end.

(** What a slot of the store keeps of a number assigned to it: a plain
    Array the number itself, a Buffer or Uint8Array the number modulo 256. *)
Definition slot_keeps (st : store) (v : Z) : Z :=
  match st with
  | SArray _ => v
  | _ => to_uint8 v
  end.


Definition is_ascii (s : jsstring) : Prop := Forall (fun c => 0 <= c < 128) s.

Definition is_bytes (l : list Z) : Prop := Forall (fun b => 0 <= b < 256) l.

(** A computation that never moves the position backwards. *)
Definition position_grows {A} (m : M A) : Prop :=
  forall this, position this <= position (snd (m this)).

(** *** The claims that the code does not meet, in the words of the specification *)

(** C3 in the words of the specification: a [read] whose window reaches past
    the capacity raises an error. *)
Definition read_rejects_overrun (this : binary) (position_ : Z) (length : option Z) : Prop :=
  window_past_capacity this position_ length ->
  exists e, read this position_ length = inl e.

(** C6 in the words of the specification, for a call [write(data, offset)]
    with a Buffer [data]: the store grows to the old capacity plus the length
    of the data when the data does not fit, the data sits in the store from
    [offset] on, and the position is the larger of the old position and
    [offset + data.length]. *)
Definition write_as_specified
    (uninit : Z -> Z) (this : binary) (data : list Z) (offset : Z) : Prop :=
  let this' := snd (write uninit (VBuffer data) (Some offset) this) in
  (forall capacity,
      store_length (buffer this) = inr capacity ->
      capacity < offset + len data ->
      store_length (buffer this') = inr (capacity + len data))
  /\ (forall i, 0 <= i < len data ->
                store_get (buffer this') (offset + i) = data !! Z.to_nat i)
  /\ position this' = Z.max (position this) (offset + len data).


(** *** The arguments on which [put] raises, read off lines 73 and 74 *)

Definition put_raises_on (byte_value : jsval) : bool :=
  match byte_value with
  | VNull => true
  | VNum n => 255 <? n
  | VStr s | VBuffer s => negb (len s =? 1)
  | VUint8 [n] | VArray [n] => (n <? 0) || (255 <? n)
  | VUint8 _ | VArray _ => true
  end.

(** *** Sequences of calls and the instances they build *)

(** [put] of each number of a list, in order. *)
Definition put_all (uninit : Z -> Z) (bytes : list Z) (this : binary) : binary :=
  foldl (fun b x => snd (put uninit (VNum x) b)) this bytes.

(** The instances built by the constructor and [put] alone. *)
Inductive built_by_put (uninit : Z -> Z) : binary -> Prop :=
| built_new buffer subType :
    built_by_put uninit (Binary uninit buffer subType)
| built_put byte_value this :
    built_by_put uninit this ->
    built_by_put uninit (snd (put uninit byte_value this)).

(** A computation that leaves the subtype alone. *)
Definition keeps_sub_type {A} (m : M A) : Prop :=
  forall this, sub_type (snd (m this)) = sub_type this.

(** The first [n] slots of a store. *)
Definition store_take (n : nat) (st : store) : store :=
  match st with
  | SBuffer l => SBuffer (take n l)
  | SUint8 l => SUint8 (take n l)
  | SArray l => SArray (take n l)
  | SNull => SNull
  end.

(** The argument of [write] is a Buffer or an Array. *)
Definition is_byte_sequence (string : jsval) : Prop :=
  match string with VBuffer _ | VArray _ => True | _ => False end.

(** Fresh memory that is all zero, for closed examples. *)
Definition zero_fill : Z -> Z := fun _ => 0.

(** ** Lemmas on the primitives *)

Lemma BUFFER_SIZE_eq : BUFFER_SIZE = 256.
Proof. reflexivity. Qed.

(* The proofs use [BUFFER_SIZE] through the equation above. *)
Opaque BUFFER_SIZE.

Ltac run :=
  unfold put, write, assign_at_position, advance_position,
    bind, lift, get, set_buffer, set_position, ret, throw; simpl.

Lemma read_length_spec (this : binary) (length : option Z) :
  match length with
  | Some l => if negb (l =? 0) && (0 <? l) then l else position this
  | None => position this
  end = spec_read_length this length.
Proof.
  destruct length as [l|]; simpl; [|reflexivity].
  destruct (Z.eqb_spec l 0), (Z.ltb_spec 0 l); simpl; try reflexivity; lia.
Qed.

Lemma slice_forward {A} (l : list A) (p n : Z) :
  0 <= p -> 0 <= n ->
  slice l p (p + n) = take (Z.to_nat n) (drop (Z.to_nat p) l).
Proof.
  intros Hp Hn. unfold slice, rel_index.
  destruct (Z.ltb_spec p 0); [lia|].
  destruct (Z.ltb_spec (p + n) 0); [lia|].
  destruct (Z_le_gt_dec (len l) p) as [Hge|Hlt].
  - rewrite Z.min_r by lia.
    rewrite !(drop_ge l) by lia. by rewrite !take_nil.
  - rewrite (Z.min_l p) by lia.
    destruct (Z_le_gt_dec (p + n) (len l)).
    + rewrite Z.min_l by lia. f_equal. lia.
    + rewrite Z.min_r by lia.
      rewrite !take_ge; [done | rewrite length_drop; lia | rewrite length_drop; lia].
Qed.

Lemma length_slice_forward {A} (l : list A) (p n : Z) :
  0 <= p -> 0 <= n ->
  len (slice l p (p + n)) = Z.max 0 (Z.min n (len l - p)).
Proof.
  intros Hp Hn. rewrite slice_forward by done.
  rewrite length_take, length_drop. lia.
Qed.

Lemma spec_read_length_nonneg (this : binary) (length : option Z) :
  0 <= position this -> 0 <= spec_read_length this length.
Proof.
  intros H. unfold spec_read_length.
  destruct length as [l|]; [|done]. destruct (Z.ltb_spec 0 l); lia.
Qed.

Lemma read_unfold (this : binary) (p : Z) (length : option Z) :
  read this p length
  = store_slice (buffer this) p (p + spec_read_length this length).
Proof.
  unfold read. rewrite read_length_spec.
  by destruct (buffer this).
Qed.

(** ** [read] *)

(** C7.  When [length] is omitted, zero or negative, [read] takes the cursor
    [this.position] as the length, whatever the start offset is: the window
    is [p, p + this.position), not the bytes that remain after [p]; a
    positive [length] is used as given.  So [read(0)] on a value made from
    [10,20,30] returns the three bytes, and [read(1, 1)] returns [20]. *)
Theorem read_length_defaults_to_cursor :
  (forall this p,
      read this p None = store_slice (buffer this) p (p + position this))
  /\ (forall this p l,
         read this p (Some l)
         = store_slice (buffer this) p (p + if l <=? 0 then position this else l))
  /\ (forall uninit,
         read (Binary uninit (VBuffer [10; 20; 30]) None) 0 None
         = inr (SBuffer [10; 20; 30])
         /\ read (Binary uninit (VBuffer [10; 20; 30]) None) 1 (Some 1)
            = inr (SBuffer [20])
         /\ read (Binary uninit (VArray [10; 20; 30]) None) 0 None
            = inr (SArray [Some 10; Some 20; Some 30])
         /\ read (Binary uninit (VArray [10; 20; 30]) None) 1 (Some 1)
            = inr (SArray [Some 20])
         /\ read (snd (write uninit (VBuffer [10; 20; 30]) None (Binary uninit VNull None)))
                 1 None
            = inr (SBuffer [20; 30; to_uint8 (uninit 3)])).
Proof.
  split; [|split].
  - intros this p. apply read_unfold.
  - intros this p l. rewrite read_unfold. simpl.
    destruct (Z.ltb_spec 0 l), (Z.leb_spec l 0); try reflexivity; lia.
  - intros uninit. repeat split; reflexivity.
Qed.

(** C10.  On a Buffer-backed instance, [read(p, len)] with [p >= 0] raises
    nothing and returns [buffer.slice(p, p + L)], [L] being [len] when it is
    positive and the cursor otherwise.  The result has
    [max 0 (min L (capacity - p))] bytes: a window that reaches past the
    capacity is cut at the end of the store, and a start at or past the
    capacity gives the empty result. *)
Theorem read_on_Buffer_never_raises
    (this : binary) (l : list Z) (p : Z) (length : option Z) :
  buffer this = SBuffer l ->
  0 <= p ->
  0 <= position this ->
  let L := spec_read_length this length in
  read this p length = inr (SBuffer (slice l p (p + L)))
  /\ slice l p (p + L) = take (Z.to_nat L) (drop (Z.to_nat p) l)
  /\ len (slice l p (p + L)) = Z.max 0 (Z.min L (len l - p))
  /\ (len l < p + L -> slice l p (p + L) = drop (Z.to_nat p) l)
  /\ (len l <= p -> slice l p (p + L) = []).
Proof.
  intros Hbuf Hp Hpos L.
  assert (0 <= L) as HL by (by apply spec_read_length_nonneg).
  repeat split.
  - rewrite read_unfold, Hbuf. reflexivity.
  - by apply slice_forward.
  - by apply length_slice_forward.
  - intros Hpast. rewrite slice_forward by done.
    apply take_ge. rewrite length_drop. lia.
  - intros Hstart. rewrite slice_forward by done.
    rewrite drop_ge by lia. apply take_nil.
Qed.

Lemma read_on_Buffer_never_raises_witness :
  read (mkBinary 0 (SBuffer [10; 20; 30]) 3) 2 (Some 5) = inr (SBuffer [30]).
Proof.
  exact (proj1 (read_on_Buffer_never_raises
                  (mkBinary 0 (SBuffer [10; 20; 30]) 3) [10; 20; 30] 2 (Some 5)
                  eq_refl ltac:(lia) ltac:(simpl; lia))).
Defined.

(** C3, as the code has it.  [read] checks no bounds: when the window
    [p, p + L) reaches past the capacity of the store ([p >= 0]), no error is
    raised, and the result is what the store holds from [p] to its end
    (nothing when [p] is at or past the capacity). *)
Theorem read_past_capacity_is_truncated
    (this : binary) (p : Z) (length : option Z) :
  buffer this <> SNull ->
  0 <= p ->
  0 <= position this ->
  window_past_capacity this p length ->
  read this p length = inr (store_drop (Z.to_nat p) (buffer this)).
Proof.
  intros Hnull Hp Hpos (capacity & Hcap & Hpast).
  assert (0 <= spec_read_length this length) as HL
    by (by apply spec_read_length_nonneg).
  rewrite read_unfold.
  destruct (buffer this) as [l|l|l|]; simpl in *; try done;
    injection Hcap as <-;
    rewrite slice_forward by done;
    (rewrite take_ge; [done | rewrite length_drop; lia]).
Qed.

Lemma read_past_capacity_is_truncated_witness :
  read (mkBinary 0 (SBuffer [10; 20; 30]) 3) 1 (Some 5) = inr (SBuffer [20; 30]).
Proof.
  apply (read_past_capacity_is_truncated
           (mkBinary 0 (SBuffer [10; 20; 30]) 3) 1 (Some 5)).
  - discriminate.
  - lia.
  - simpl; lia.
  - exists 3. split; [reflexivity | simpl; lia].
Defined.

(** ** Element assignment and growth *)

Lemma to_uint8_idemp (v : Z) : to_uint8 (to_uint8 v) = to_uint8 v.
Proof. unfold to_uint8. by rewrite Z.mod_mod. Qed.

Lemma to_uint8_byte (v : Z) : 0 <= v <= 255 -> to_uint8 v = v.
Proof. intros H. unfold to_uint8. apply Z.mod_small. lia. Qed.

Lemma length_alloc (uninit : Z -> Z) (n : Z) : len (alloc uninit n) = Z.max 0 n.
Proof. unfold alloc. rewrite length_fmap, length_seqZ. lia. Qed.

Lemma store_set_length (st st' : store) (i v capacity : Z) :
  store_set st i v = inr st' ->
  store_length st = inr capacity ->
  i < capacity ->
  store_length st' = inr capacity.
Proof.
  intros Hset Hcap Hi.
  destruct st as [l|l|l|]; simpl in *; try done;
    injection Hset as <-; injection Hcap as <-; simpl.
  - unfold buf_set. destruct (i <? 0); by rewrite ?length_insert.
  - unfold buf_set. destruct (i <? 0); by rewrite ?length_insert.
  - unfold arr_set. destruct (i <? 0); [done|].
    destruct (Z.ltb_spec i (len l)); [|lia]. by rewrite length_insert.
Qed.

Lemma store_set_get_eq (st st' : store) (i v capacity : Z) :
  store_set st i v = inr st' ->
  store_length st = inr capacity ->
  0 <= i < capacity ->
  exists x, store_get st' i = Some x
            /\ to_uint8 x = to_uint8 v
            /\ (0 <= v <= 255 -> x = v).
Proof.
  intros Hset Hcap Hi.
  destruct st as [l|l|l|]; simpl in *; try done;
    injection Hset as <-; injection Hcap as <-;
    unfold store_get, buf_set, arr_set;
    destruct (Z.ltb_spec i 0); try lia.
  - exists (to_uint8 v). rewrite list_lookup_insert_eq by lia.
    auto using to_uint8_idemp, to_uint8_byte.
  - exists (to_uint8 v). rewrite list_lookup_insert_eq by lia.
    auto using to_uint8_idemp, to_uint8_byte.
  - exists v. destruct (Z.ltb_spec i (len l)); [|lia].
    rewrite list_lookup_insert_eq by lia. auto.
Qed.

Lemma store_set_get_ne (st st' : store) (i j v capacity : Z) :
  store_set st i v = inr st' ->
  store_length st = inr capacity ->
  0 <= i < capacity ->
  j <> i ->
  store_get st' j = store_get st j.
Proof.
  intros Hset Hcap Hi Hne.
  destruct st as [l|l|l|]; simpl in *; try done;
    injection Hset as <-; injection Hcap as <-;
    unfold store_get, buf_set, arr_set;
    destruct (Z.ltb_spec i 0); try lia;
    destruct (Z.ltb_spec j 0); try done.
  - rewrite list_lookup_insert_ne by lia. done.
  - rewrite list_lookup_insert_ne by lia. done.
  - destruct (Z.ltb_spec i (len l)); [|lia].
    rewrite list_lookup_insert_ne by lia. done.
Qed.

(** Copying a buffer to the start of a target that is at least as long
    overwrites a prefix of the target and leaves the rest of it. *)
Lemma buf_copy_prefix (src target : list Z) :
  len src <= len target ->
  buf_copy src target 0 = inr (src ++ drop (length src) target).
Proof.
  intros Hle. unfold buf_copy. simpl.
  destruct (Z.leb_spec (len target) 0) as [H0|H0]; simpl.
  - assert (target = []) as -> by (destruct target; simpl in *; [done | lia]).
    assert (src = []) as -> by (destruct src; simpl in *; [done | lia]).
    done.
  - destruct (Z.eqb_spec (len src) 0) as [Hs|Hs].
    + assert (src = []) as -> by (destruct src; simpl in *; [done | lia]).
      by rewrite drop_0.
    + rewrite Z.sub_0_r, Z.min_l by lia. simpl.
      rewrite Z.add_0_l, Nat2Z.id, take_ge by lia. done.
Qed.

Lemma put_grown_length (uninit : Z -> Z) (st : store) (capacity : Z) :
  store_length st = inr capacity ->
  store_length (put_grown uninit st) = inr (capacity + BUFFER_SIZE).
Proof.
  intros Hcap.
  destruct st as [l|l|l|]; simpl in *; try done; injection Hcap as <-; f_equal.
  - rewrite length_app, length_drop.
    pose proof (length_alloc uninit (BUFFER_SIZE + len l)).
    pose proof BUFFER_SIZE_eq. lia.
  - rewrite length_app, length_fmap, length_replicate.
    pose proof BUFFER_SIZE_eq. lia.
  - rewrite length_app, length_replicate. pose proof BUFFER_SIZE_eq. lia.
Qed.

Lemma put_grown_get (uninit : Z -> Z) (st : store) (capacity i : Z) :
  store_length st = inr capacity ->
  i < capacity ->
  store_get (put_grown uninit st) i = store_get st i.
Proof.
  intros Hcap Hi. unfold store_get.
  destruct (Z.ltb_spec i 0); [done|].
  destruct st as [l|l|l|]; simpl in *; try done; injection Hcap as <-.
  - by rewrite lookup_app_l by lia.
  - rewrite lookup_app_l by (rewrite length_fmap; lia).
    rewrite list_lookup_fmap. by destruct (l !! Z.to_nat i).
  - by rewrite lookup_app_l by lia.
Qed.

(** [put] on an argument that passes lines 73 and 74. *)
Lemma put_accepted (uninit : Z -> Z) (byte_value : jsval) (a : byte_arg)
    (this : binary) (capacity : Z) :
  single_element byte_value = inr a ->
  rejected_by_range_check a = false ->
  store_length (buffer this) = inr capacity ->
  exists st',
    store_set (if position this <? capacity then buffer this
               else put_grown uninit (buffer this))
              (position this) (decode_byte a) = inr st'
    /\ put uninit byte_value this
       = (inr tt, mkBinary (sub_type this) st' (position this + 1)).
Proof.
  intros Ha Hrange Hcap. run. rewrite Ha, Hrange, Hcap.
  destruct (position this <? capacity).
  - destruct (buffer this) as [l|l|l|]; simpl in *; try done; eauto.
  - destruct (buffer this) as [l|l|l|]; simpl in *; try done; eauto.
    injection Hcap as <-.
    rewrite buf_copy_prefix
      by (pose proof (length_alloc uninit (BUFFER_SIZE + len l));
          pose proof BUFFER_SIZE_eq; lia).
    simpl. eauto.
Qed.

(** When [put] raises, the argument failed line 73 or 74, or the store
    is null. *)
Lemma put_raises (uninit : Z -> Z) (byte_value : jsval) (this : binary) (e : exn) :
  fst (put uninit byte_value this) = inl e ->
  single_element byte_value = inl e
  \/ (exists a, single_element byte_value = inr a
                /\ rejected_by_range_check a = true /\ e = Error msg_range)
  \/ store_length (buffer this) = inl e.
Proof.
  intros Hput.
  destruct (single_element byte_value) as [e'|a] eqn:Ha.
  - left. revert Hput. run. rewrite Ha. simpl. congruence.
  - destruct (rejected_by_range_check a) eqn:Hr.
    + right; left. exists a. revert Hput. run. rewrite Ha, Hr. simpl.
      intros [= <-]. done.
    + destruct (store_length (buffer this)) as [e'|capacity] eqn:Hcap.
      * right; right. revert Hput. run. rewrite Ha, Hr, Hcap. simpl. congruence.
      * destruct (put_accepted uninit _ _ _ _ Ha Hr Hcap) as (st' & _ & Heq).
        rewrite Heq in Hput. done.
Qed.

(** A [put] that raises leaves the instance as it was. *)
Lemma put_raise_keeps_instance (uninit : Z -> Z) (byte_value : jsval)
    (this : binary) (e : exn) :
  fst (put uninit byte_value this) = inl e ->
  snd (put uninit byte_value this) = this.
Proof.
  intros Hput.
  destruct (single_element byte_value) as [e'|a] eqn:Ha.
  - run. by rewrite Ha.
  - destruct (rejected_by_range_check a) eqn:Hr.
    + run. by rewrite Ha, Hr.
    + destruct (store_length (buffer this)) as [e'|capacity] eqn:Hcap.
      * run. by rewrite Ha, Hr, Hcap.
      * destruct (put_accepted uninit _ _ _ _ Ha Hr Hcap) as (st' & _ & Heq).
        rewrite Heq in Hput. done.
Qed.

(** ** [put] *)

(** C8.  A [put] that succeeds on an instance whose capacity equals its
    position leaves a store of exactly the old capacity plus 256 slots; when
    the capacity exceeds the position the store keeps its size and every
    other slot.  In both cases the slots [0, old position) read as before,
    the decoded byte sits at the old position (a Buffer keeps it modulo 256,
    which is the byte itself when it lies in 0..255), and the position has
    grown by one.  The decoded byte is the argument itself when it is a
    number, the code of its character when it is a string, and its element
    when it is a Buffer, a Uint8Array or an Array. *)
Theorem put_appends_at_position
    (uninit : Z -> Z) (this : binary) (byte_value : jsval) (capacity : Z) :
  store_length (buffer this) = inr capacity ->
  0 <= position this <= capacity ->
  fst (put uninit byte_value this) = inr tt ->
  exists d,
    (byte_value = VNum d \/ byte_value = VStr [d] \/ byte_value = VBuffer [d]
     \/ byte_value = VUint8 [d] \/ byte_value = VArray [d])
    /\ let this' := snd (put uninit byte_value this) in
       (position this = capacity ->
        store_length (buffer this') = inr (capacity + 256))
       /\ (position this < capacity ->
           store_length (buffer this') = inr capacity
           /\ forall i, i <> position this ->
                        store_get (buffer this') i = store_get (buffer this) i)
       /\ (forall i, 0 <= i < position this ->
                     store_get (buffer this') i = store_get (buffer this) i)
       /\ (exists x, store_get (buffer this') (position this) = Some x
                     /\ to_uint8 x = to_uint8 d)
       /\ (0 <= d <= 255 ->
           store_get (buffer this') (position this) = Some d)
       /\ position this' = position this + 1
       /\ sub_type this' = sub_type this.
Proof.
  intros Hcap Hpos Hok.
  destruct (single_element byte_value) as [e|a] eqn:Ha.
  { revert Hok. run. rewrite Ha. done. }
  destruct (rejected_by_range_check a) eqn:Hr.
  { revert Hok. run. rewrite Ha, Hr. done. }
  destruct (put_accepted uninit _ _ _ _ Ha Hr Hcap) as (st' & Hset & ->).
  exists (decode_byte a). split.
  { clear -Ha.
    destruct byte_value as [|n|[|c [|? ?]]|[|c [|? ?]]|[|c [|? ?]]|[|c [|? ?]]];
      simpl in Ha; try discriminate Ha; injection Ha as <-; simpl; auto 6. }
  simpl. clear Hok.
  destruct (Z.ltb_spec (position this) capacity) as [Hlt|Hge].
  - pose proof (store_set_get_eq _ _ _ _ _ Hset Hcap ltac:(lia))
      as (x & Hx & Hmod & Hbyte).
    repeat split; try lia.
    + eapply store_set_length; eauto.
    + intros i Hi. eapply store_set_get_ne; eauto. lia.
    + intros i Hi. eapply store_set_get_ne; eauto; lia.
    + eauto.
    + intros Hb. rewrite Hx. f_equal. auto.
  - assert (position this = capacity) as Heq by lia.
    pose proof (put_grown_length uninit _ _ Hcap) as Hcap'.
    rewrite BUFFER_SIZE_eq in Hcap'.
    pose proof (store_set_get_eq _ _ _ _ _ Hset Hcap' ltac:(lia))
      as (x & Hx & Hmod & Hbyte).
    repeat split; try lia.
    + intros _. eapply store_set_length; eauto. lia.
    + intros i Hi.
      rewrite (store_set_get_ne _ _ _ i _ _ Hset Hcap') by lia.
      eapply put_grown_get; eauto. lia.
    + eauto.
    + intros Hb. rewrite Hx. f_equal. auto.
Qed.

Lemma put_appends_at_position_witness :
  store_get (buffer (snd (put zero_fill (VStr (lit "A"))
                              (Binary zero_fill (VBuffer [1; 2; 3]) None)))) 3
  = Some 65.
Proof.
  destruct (put_appends_at_position zero_fill
              (Binary zero_fill (VBuffer [1; 2; 3]) None) (VStr (lit "A")) 3
              eq_refl ltac:(simpl; lia) eq_refl)
    as (d & Hd & _ & _ & _ & _ & Hbyte & _).
  assert (d = 65) as ->
    by (destruct Hd as [Hd|[Hd|[Hd|[Hd|Hd]]]]; try discriminate Hd;
        injection Hd as <-; reflexivity).
  apply Hbyte. lia.
Defined.

(** C2, at the input where the code leaves the claim: [put(-1)] on a fresh
    instance raises nothing.  The test of line 74 reads
    [(!isNumber(v) && v < 0) || v > 255], so no negative number is caught;
    the Buffer keeps 255 for it and the position moves to 1. *)
Theorem put_takes_negative_number (uninit : Z -> Z) :
  fst (put uninit (VNum (-1)) (Binary uninit VNull None)) = inr tt
  /\ store_get (buffer (snd (put uninit (VNum (-1)) (Binary uninit VNull None)))) 0
     = Some 255
  /\ position (snd (put uninit (VNum (-1)) (Binary uninit VNull None))) = 1.
Proof. repeat split; reflexivity. Qed.

(** ** Writing a run of bytes into a Buffer *)

Lemma length_splice (l bytes : list Z) (offset : Z) :
  0 <= offset -> offset + len bytes <= len l ->
  len (splice l offset bytes) = len l.
Proof.
  intros H0 Hfit. unfold splice.
  rewrite !length_app, length_take, length_drop. lia.
Qed.

Lemma lookup_splice_in (l bytes : list Z) (offset i : Z) :
  0 <= offset -> offset + len bytes <= len l -> 0 <= i ->
  splice l offset bytes !! Z.to_nat (offset + i) = (bytes ++ drop (Z.to_nat (offset + len bytes)) l) !! Z.to_nat i.
Proof.
  intros H0 Hfit Hi. unfold splice.
  rewrite lookup_app_r by (rewrite length_take; lia).
  f_equal. rewrite length_take. lia.
Qed.

Lemma lookup_splice_before (l bytes : list Z) (offset j : Z) :
  0 <= j < offset -> offset <= len l ->
  splice l offset bytes !! Z.to_nat j = l !! Z.to_nat j.
Proof.
  intros Hj Hfit. unfold splice.
  rewrite lookup_app_l by (rewrite length_take; lia).
  apply lookup_take_lt. lia.
Qed.

Lemma lookup_splice_after (l bytes : list Z) (offset j : Z) :
  0 <= offset -> offset + len bytes <= j ->  offset + len bytes <= len l ->
  splice l offset bytes !! Z.to_nat j = l !! Z.to_nat j.
Proof.
  intros H0 Hj Hfit. unfold splice.
  rewrite lookup_app_r by (rewrite length_take; lia).
  rewrite lookup_app_r by (rewrite length_take; lia).
  rewrite lookup_drop. f_equal. rewrite length_take. lia.
Qed.

Lemma splice_nil (l : list Z) (offset : Z) : splice l offset [] = l.
Proof.
  unfold splice. simpl. rewrite Z.add_0_r. apply take_drop.
Qed.

Lemma buf_copy_fits (src target : list Z) (offset : Z) :
  0 <= offset -> offset + len src <= len target ->
  buf_copy src target offset = inr (splice target offset src).
Proof.
  intros H0 Hfit. unfold buf_copy.
  destruct (Z.ltb_spec offset 0); [lia|].
  destruct (Z.eqb_spec (len src) 0) as [Hs|Hs].
  - assert (src = []) as -> by (destruct src; simpl in *; [done | lia]).
    rewrite orb_true_r. by rewrite splice_nil.
  - destruct (Z.leb_spec (len target) offset); [lia|]. simpl.
    rewrite (Z.min_l (len src) (len target - offset)) by lia.
    rewrite Nat2Z.id, (take_ge src) by lia. done.
Qed.

Lemma assign_loop_Buffer (vals l : list Z) (offset : Z) :
  0 <= offset -> offset + len vals <= len l ->
  assign_loop (SBuffer l) offset vals
  = inr (SBuffer (splice l offset (to_uint8 <$> vals))).
Proof.
  revert l offset. induction vals as [|v vs IH]; intros l offset H0 Hfit.
  - simpl. by rewrite splice_nil.
  - simpl in *. rewrite IH by (unfold buf_set; destruct (offset <? 0);
                               rewrite ?length_insert; lia).
    do 2 f_equal. unfold splice, buf_set.
    destruct (Z.ltb_spec offset 0); [lia|].
    rewrite length_fmap. simpl. rewrite length_fmap.
    replace (Z.to_nat (offset + 1)) with (S (Z.to_nat offset)) by lia.
    replace (Z.to_nat (offset + 1 + len vs))
      with (Z.to_nat (offset + Z.of_nat (S (length vs)))) by lia.
    rewrite drop_insert_lt by lia.
    rewrite (take_S_r _ _ (to_uint8 v))
      by (apply list_lookup_insert_eq; lia).
    rewrite take_insert_ge by lia.
    by rewrite <- app_assoc.
Qed.

Lemma length_write_grown (uninit : Z -> Z) (old : list Z) (offset n : Z) :
  0 <= n ->
  len (write_grown uninit old offset n)
  = if len old <? offset + n then len old + n else len old.
Proof.
  intros Hn. unfold write_grown. destruct (len old <? offset + n); [|done].
  rewrite length_app, length_drop.
  pose proof (length_alloc uninit (len old + n)). lia.
Qed.

(** [write] on a Buffer-backed instance, at an offset inside the store. *)
Lemma write_on_Buffer (uninit : Z -> Z) (this : binary) (old bytes : list Z)
    (string : jsval) (offset : option Z) :
  buffer this = SBuffer old ->
  data_bytes string = Some bytes ->
  0 <= default (position this) offset <= len old ->
  let o := default (position this) offset in
  write uninit string offset this
  = (inr tt,
     mkBinary (sub_type this)
              (SBuffer (splice (write_grown uninit old o (len bytes)) o bytes))
              (if position this <? o + len bytes then o + len bytes
               else position this)).
Proof.
  intros Hbuf Hbytes Ho o.
  assert (match offset with Some x => x | None => position this end = o) as Ho'
    by (by destruct offset).
  pose proof (length_write_grown uninit old o (len bytes) ltac:(lia)) as Hlen.
  assert (o + len bytes <= len (write_grown uninit old o (len bytes))) as Hfit
    by (rewrite Hlen; destruct (Z.ltb_spec (len old) (o + len bytes)); lia).
  assert (forall A (k : store -> M A),
             ((if len old <? o + len bytes
               then buffer' <- lift (buf_copy old (alloc uninit (len old + len bytes)) 0) ;;
                    set_buffer (SBuffer buffer')
               else ret tt) ;;; buf <- get buffer ;; k buf) this
             = k (SBuffer (write_grown uninit old o (len bytes)))
                 (mkBinary (sub_type this)
                    (SBuffer (write_grown uninit old o (len bytes))) (position this)))
    as Hgrow.
  { intros A k. unfold write_grown. run.
    destruct (len old <? o + len bytes).
    - rewrite buf_copy_prefix
        by (pose proof (length_alloc uninit (len old + len bytes)); lia).
      reflexivity.
    - simpl. rewrite <- Hbuf. by destruct this. }
  destruct string as [|n|s|l|l|l]; simpl in Hbytes; try done;
    injection Hbytes as <-; unfold write;
    unfold bind at 1, get at 1; rewrite Ho';
    unfold bind at 1, get at 1; rewrite Hbuf;
    unfold bind at 1, lift at 1; simpl store_length; cbv iota;
    unfold bind at 1, lift at 1; simpl data_length; cbv iota beta;
    rewrite ?length_fmap in *; rewrite Hgrow.
  - run. rewrite buf_copy_fits by lia. reflexivity.
  - run. rewrite assign_loop_Buffer by lia. reflexivity.
Qed.

(** ** [write] *)

Lemma lookup_write_grown (uninit : Z -> Z) (old : list Z) (offset n : Z) (j : nat) :
  (j < length old)%nat ->
  write_grown uninit old offset n !! j = old !! j.
Proof.
  intros Hj. unfold write_grown.
  destruct (len old <? offset + n); [|done]. by apply lookup_app_l.
Qed.

Lemma store_set_get_kept (st st' : store) (i v capacity : Z) :
  store_set st i v = inr st' ->
  store_length st = inr capacity ->
  0 <= i < capacity ->
  store_get st' i = Some (slot_keeps st v)
  /\ forall w, slot_keeps st' w = slot_keeps st w.
Proof.
  intros Hset Hcap Hi.
  destruct st as [l|l|l|]; simpl in *; try done;
    injection Hset as <-; injection Hcap as <-;
    unfold store_get, buf_set, arr_set;
    destruct (Z.ltb_spec i 0); try lia; (split; [|done]).
  - by rewrite list_lookup_insert_eq by lia.
  - by rewrite list_lookup_insert_eq by lia.
  - destruct (Z.ltb_spec i (len l)); [|lia].
    by rewrite list_lookup_insert_eq by lia.
Qed.

(** The element loop on a store that has room for all the values. *)
Lemma assign_loop_fits (vals : list Z) :
  forall (st : store) (offset capacity : Z),
    store_length st = inr capacity ->
    0 <= offset -> offset + len vals <= capacity ->
    exists st',
      assign_loop st offset vals = inr st'
      /\ store_length st' = inr capacity
      /\ (forall w, slot_keeps st' w = slot_keeps st w)
      /\ (forall j, j < offset \/ offset + len vals <= j ->
                    store_get st' j = store_get st j)
      /\ (forall i v, vals !! i = Some v ->
                      store_get st' (offset + Z.of_nat i) = Some (slot_keeps st v)).
Proof.
  induction vals as [|v vs IH]; intros st offset capacity Hcap H0 Hfit.
  - exists st. simpl. repeat split; done.
  - cbn [length] in Hfit. cbn [assign_loop].
    destruct (store_set st offset v) as [e|st1] eqn:Hset.
    { destruct st; simpl in *; done. }
    pose proof (store_set_length _ _ _ _ _ Hset Hcap ltac:(lia)) as Hcap1.
    destruct (store_set_get_kept _ _ _ _ _ Hset Hcap ltac:(lia)) as [Hget1 Hkind1].
    destruct (IH st1 (offset + 1) capacity Hcap1 ltac:(lia) ltac:(lia))
      as (st' & Hloop & Hcap' & Hkind' & Hout & Hin).
    exists st'. repeat split; try done.
    + intros w. by rewrite Hkind', Hkind1.
    + intros j Hj. rewrite Hout by (cbn [length] in Hj; lia).
      eapply store_set_get_ne; eauto; cbn [length] in Hj; lia.
    + intros [|i] x Hx.
      * injection Hx as <-. rewrite Z.add_0_r, Hout by lia. done.
      * rewrite <- Hkind1.
        replace (offset + Z.of_nat (S i)) with (offset + 1 + Z.of_nat i) by lia.
        by apply Hin.
Qed.

(** [write] into a store that is not a Buffer and has room for the data. *)
Lemma write_fits_on_other_store (uninit : Z -> Z) (this : binary)
    (string : jsval) (vals : list Z) (offset capacity : Z) :
  isBuffer (buffer this) = false ->
  store_length (buffer this) = inr capacity ->
  data_elems string = Some vals ->
  0 <= offset ->
  offset + len vals <= capacity ->
  exists st',
    assign_loop (buffer this) offset vals = inr st'
    /\ write uninit string (Some offset) this
       = (inr tt, mkBinary (sub_type this) st'
                           (if position this <? offset + len vals
                            then offset + len vals else position this)).
Proof.
  intros Hkind Hcap Hvals H0 Hfit.
  destruct (assign_loop_fits vals (buffer this) offset capacity Hcap H0 Hfit)
    as (st' & Hloop & _).
  apply Z.ltb_ge in Hfit.
  destruct this as [t buf pos]. cbn [buffer position sub_type] in *.
  exists st'. split; [done|].
  destruct buf as [l|l|l|]; try done; simpl in Hcap; injection Hcap as <-;
    destruct string as [|x|s|d|d|d]; try done;
    simpl in Hvals; injection Hvals as <-;
    run; rewrite Hfit; simpl; rewrite Hloop; reflexivity.
Qed.

(** C6, as the code has it.  [write(data, offset)] with [offset >= 0] does
    what the claim says in two cases.  First, on a Buffer-backed instance,
    for data that is a Buffer or an Array of numbers and [offset <=
    capacity]: when [offset + data.length] exceeds the capacity the store
    becomes exactly [capacity + data.length] bytes long, otherwise it keeps
    its length.  Second, on an instance backed by an Array or a Uint8Array,
    for data that is a Buffer, an Array of numbers or a string and [offset +
    data.length <= capacity]: the store keeps its length.  In both cases the
    call succeeds, the data sits at [offset, offset + data.length) (a Buffer
    or Uint8Array keeps each number modulo 256, a plain Array as given),
    every old slot outside that window is as it was, and the position is
    [max(old position, offset + data.length)].  Made from [1,2,3],
    [write([9,9], 1)] gives the content [1,9,9] and the position 3. *)
Theorem write_inside_store (uninit : Z -> Z) :
  (forall (this : binary) (old bytes : list Z) (string : jsval) (offset : Z),
      buffer this = SBuffer old ->
      data_bytes string = Some bytes ->
      0 <= offset <= len old ->
      let n := len bytes in
      let this' := snd (write uninit string (Some offset) this) in
      fst (write uninit string (Some offset) this) = inr tt
      /\ (len old < offset + n -> store_length (buffer this') = inr (len old + n))
      /\ (offset + n <= len old -> store_length (buffer this') = inr (len old))
      /\ (forall i, 0 <= i < n ->
                    store_get (buffer this') (offset + i) = bytes !! Z.to_nat i)
      /\ (forall j, 0 <= j < len old -> j < offset \/ offset + n <= j ->
                    store_get (buffer this') j = old !! Z.to_nat j)
      /\ position this' = Z.max (position this) (offset + n)
      /\ sub_type this' = sub_type this)
  /\ (forall (this : binary) (string : jsval) (vals : list Z) (offset capacity : Z),
         isBuffer (buffer this) = false ->
         store_length (buffer this) = inr capacity ->
         data_elems string = Some vals ->
         0 <= offset ->
         offset + len vals <= capacity ->
         let this' := snd (write uninit string (Some offset) this) in
         fst (write uninit string (Some offset) this) = inr tt
         /\ store_length (buffer this') = inr capacity
         /\ (forall i v, vals !! i = Some v ->
                         store_get (buffer this') (offset + Z.of_nat i)
                         = Some (slot_keeps (buffer this) v))
         /\ (forall j, j < offset \/ offset + len vals <= j ->
                       store_get (buffer this') j = store_get (buffer this) j)
         /\ position this' = Z.max (position this) (offset + len vals)
         /\ sub_type this' = sub_type this)
  /\ write uninit (VArray [9; 9]) (Some 1) (Binary uninit (VArray [1; 2; 3]) None)
     = (inr tt, mkBinary 0 (SArray [Some 1; Some 9; Some 9]) 3)
  /\ write uninit (VBuffer [9; 9]) (Some 1) (Binary uninit (VBuffer [1; 2; 3]) None)
     = (inr tt, mkBinary 0 (SBuffer [1; 9; 9]) 3).
Proof.
  split; [|split; [|split; reflexivity]].
  - intros this old bytes string offset Hbuf Hbytes Ho n this'. subst this'.
    pose proof (write_on_Buffer uninit this old bytes string (Some offset)
                  Hbuf Hbytes Ho) as Hw.
    cbv zeta in Hw.
    change (default (position this) (Some offset)) with offset in Hw.
    rewrite Hw. clear Hw.
    cbn [fst snd buffer position sub_type].
    pose proof (length_write_grown uninit old offset n ltac:(lia)) as Hlen.
    fold n in Hlen |- *.
    assert (offset + n <= len (write_grown uninit old offset n)) as Hfit
      by (rewrite Hlen; destruct (Z.ltb_spec (len old) (offset + n)); lia).
    repeat split.
    + intros Hgrow. simpl. f_equal. rewrite length_splice by (fold n; lia).
      rewrite Hlen. destruct (Z.ltb_spec (len old) (offset + n)); lia.
    + intros Hgrow. simpl. f_equal. rewrite length_splice by (fold n; lia).
      rewrite Hlen. destruct (Z.ltb_spec (len old) (offset + n)); lia.
    + intros i Hi. unfold store_get.
      destruct (Z.ltb_spec (offset + i) 0); [lia|].
      rewrite lookup_splice_in by (fold n; lia).
      apply lookup_app_l. lia.
    + intros j Hj Hout. unfold store_get.
      destruct (Z.ltb_spec j 0); [lia|].
      destruct Hout.
      * rewrite lookup_splice_before by lia.
        apply lookup_write_grown. lia.
      * rewrite lookup_splice_after by (fold n; lia).
        apply lookup_write_grown. lia.
    + destruct (Z.ltb_spec (position this) (offset + n)); lia.
  - intros this string vals offset capacity Hkind Hcap Hvals H0 Hfit this'.
    subst this'.
    destruct (write_fits_on_other_store uninit this string vals offset capacity
                Hkind Hcap Hvals H0 Hfit) as (st' & Hloop & ->).
    destruct (assign_loop_fits vals (buffer this) offset capacity Hcap H0 Hfit)
      as (st'' & Hloop' & Hcap' & _ & Hout & Hin).
    rewrite Hloop in Hloop'. injection Hloop' as <-.
    cbn [fst snd buffer position sub_type].
    repeat split; try done.
    destruct (Z.ltb_spec (position this) (offset + len vals)); lia.
Qed.

Lemma write_inside_store_witness :
  store_get (buffer (snd (write zero_fill (VStr (lit "AB")) (Some 1)
                                (Binary zero_fill (VArray [1; 2; 3]) None)))) 2
  = Some 66
  /\ store_get (buffer (snd (write zero_fill (VBuffer [65; 66]) (Some 2)
                                   (Binary zero_fill (VBuffer [1; 2; 3]) None)))) 3
     = Some 66.
Proof.
  destruct (write_inside_store zero_fill) as (HBuffer & Hother & _).
  split.
  - destruct (Hother (Binary zero_fill (VArray [1; 2; 3]) None)
                (VStr (lit "AB")) (lit "AB") 1 3
                eq_refl eq_refl eq_refl ltac:(lia) ltac:(simpl; lia))
      as (_ & _ & Hdata & _).
    apply (Hdata 1%nat 66). reflexivity.
  - destruct (HBuffer (Binary zero_fill (VBuffer [1; 2; 3]) None) [1; 2; 3]
                [65; 66] (VBuffer [65; 66]) 2 eq_refl eq_refl ltac:(simpl; lia))
      as (_ & _ & _ & Hdata & _).
    apply (Hdata 1). simpl. lia.
Defined.

(** C1, at an input where the code leaves the claim: on a 3-byte Buffer,
    [write] of 4 bytes at offset 4 makes the store [3 + 4 = 7] bytes long,
    copies the 3 bytes that fit, and sets the position to 8, one past the
    capacity. *)
Theorem write_beyond_capacity_outruns_store (uninit : Z -> Z) :
  fst (write uninit (VBuffer [9; 9; 9; 9]) (Some 4)
             (Binary uninit (VBuffer [1; 2; 3]) None)) = inr tt
  /\ buffer (snd (write uninit (VBuffer [9; 9; 9; 9]) (Some 4)
                        (Binary uninit (VBuffer [1; 2; 3]) None)))
     = SBuffer [1; 2; 3; to_uint8 (uninit 3); 9; 9; 9]
  /\ position (snd (write uninit (VBuffer [9; 9; 9; 9]) (Some 4)
                          (Binary uninit (VBuffer [1; 2; 3]) None))) = 8.
Proof. repeat split; reflexivity. Qed.

(** On a store that is not a Buffer, a [write] that has to grow the store
    leaves [this.buffer] null: line 137 repeats the test of line 134, so no
    new store is made.  The assignment of the first element then raises a
    TypeError. *)
Lemma write_growing_Array_loses_store (uninit : Z -> Z) :
  write uninit (VArray [9; 9]) (Some 2) (Binary uninit (VArray [1; 2; 3]) None)
  = (inl (TypeError "Cannot set properties of null"), mkBinary 0 SNull 3).
Proof. reflexivity. Qed.

(** ** Construction from a string *)

Lemma utf8_encode_ascii (s : jsstring) : is_ascii s -> utf8_encode s = s.
Proof.
  induction 1 as [|c t Hc _ IH]; [done|].
  simpl. unfold is_high_surrogate, is_low_surrogate, utf8_code_point.
  destruct (Z.leb_spec 0xD800 c); [lia|].
  destruct (Z.leb_spec 0xDC00 c); [lia|].
  destruct (Z.ltb_spec c 0x80); [|lia].
  simpl. by rewrite IH.
Qed.

Lemma length_utf8_code_point (cp : Z) :
  (1 <= length (utf8_code_point cp))%nat
  /\ (0x10000 <= cp -> length (utf8_code_point cp) = 4%nat).
Proof.
  unfold utf8_code_point.
  destruct (Z.ltb_spec cp 0x80), (Z.ltb_spec cp 0x800), (Z.ltb_spec cp 0x10000);
    simpl; split; lia.
Qed.

(** UTF-8 never takes fewer bytes than the string has code units. *)
Lemma length_utf8_encode (s : jsstring) :
  (length s <= length (utf8_encode s))%nat.
Proof.
  assert (forall n s, (length s <= n)%nat ->
                      (length s <= length (utf8_encode s))%nat) as Haux;
    [|by apply (Haux (length s))].
  clear s. induction n as [|n IH]; intros s Hn.
  { destruct s; simpl in *; lia. }
  destruct s as [|c t]; [simpl; lia|].
  simpl in Hn. cbn [utf8_encode].
  pose proof (IH t ltac:(lia)) as IHt.
  destruct (is_high_surrogate c) eqn:Hhigh.
  - destruct t as [|d t']; [simpl; lia|].
    destruct (is_low_surrogate d) eqn:Hlow.
    + pose proof (IH t' ltac:(simpl in Hn; lia)) as IHt'.
      unfold is_high_surrogate, is_low_surrogate in *.
      pose proof (proj2 (length_utf8_code_point
                           (0x10000 + (c - 0xD800) * 0x400 + (d - 0xDC00)))
                        ltac:(lia)) as H4.
      rewrite length_app, H4. simpl. lia.
    + rewrite length_app. simpl in *. lia.
  - destruct (is_low_surrogate c).
    + rewrite length_app. simpl. lia.
    + rewrite length_app.
      pose proof (proj1 (length_utf8_code_point c)). simpl. lia.
Qed.

(** C4, at an input where the code leaves the claim: the string of the one
    character U+00E9.  [new Buffer(string)] encodes it as UTF-8, so the
    store holds the two bytes 195, 169 and not the byte 233; the position is
    the length of the string, 1, and the capacity is 2. *)
Theorem Binary_of_string_is_UTF8 (uninit : Z -> Z) :
  Binary uninit (VStr [233]) None = mkBinary 0 (SBuffer [195; 169]) 1
  /\ store_get (buffer (Binary uninit (VStr [233]) None)) 0 <> Some (233 mod 256)
  /\ store_length (buffer (Binary uninit (VStr [233]) None)) = inr 2.
Proof. repeat split. discriminate. Qed.

(** What holds of C4 on the code: a string of ASCII characters is stored one
    byte per character. *)
Lemma Binary_of_ascii_string (uninit : Z -> Z) (s : jsstring) (subType : option Z) :
  is_ascii s ->
  Binary uninit (VStr s) subType
  = mkBinary (default BSON_BINARY_SUBTYPE_DEFAULT subType) (SBuffer s) (len s).
Proof.
  intros Hs. unfold Binary. rewrite utf8_encode_ascii by done.
  by destruct subType.
Qed.

(** C5, at the same input: made from the string of the one character U+00E9,
    [value(false)] returns the string of the one character U+00C3, the first
    byte of the UTF-8 form. *)
Theorem value_of_string_not_round_trip (uninit : Z -> Z) :
  value (Binary uninit (VStr [233]) None) (Some false) = inr (RStr [195])
  /\ value (Binary uninit (VStr [233]) None) None = inr (RStr [195])
  /\ value (Binary uninit (VStr [233]) None) (Some false) <> inr (RStr [233]).
Proof. repeat split. discriminate. Qed.

(** What holds of C5 on the code: the round trip of an ASCII string. *)
Lemma value_of_ascii_string (uninit : Z -> Z) (s : jsstring) (subType : option Z) :
  is_ascii s ->
  value (Binary uninit (VStr s) subType) (Some false) = inr (RStr s).
Proof.
  intros Hs. rewrite Binary_of_ascii_string by done.
  unfold value, buf_toString_binary. simpl.
  rewrite Nat2Z.id, take_ge by lia. done.
Qed.

(** ** The invariant [position <= capacity] and the sign of the position *)

Lemma Binary_position_le_capacity (uninit : Z -> Z) (buffer_ : jsval) (subType : option Z) :
  exists capacity,
    store_length (buffer (Binary uninit buffer_ subType)) = inr capacity
    /\ 0 <= position (Binary uninit buffer_ subType) <= capacity.
Proof.
  destruct buffer_ as [|n|s|l|l|l]; simpl; eexists; (split; [reflexivity|]);
    rewrite ?length_fmap, ?length_seqZ; try lia.
  pose proof (length_utf8_encode s). lia.
Qed.

Lemma put_outcome (uninit : Z -> Z) (byte_value : jsval) (this : binary) :
  (exists e, put uninit byte_value this = (inl e, this))
  \/ (exists a capacity st',
         single_element byte_value = inr a
         /\ store_length (buffer this) = inr capacity
         /\ store_set (if position this <? capacity then buffer this
                       else put_grown uninit (buffer this))
                      (position this) (decode_byte a) = inr st'
         /\ put uninit byte_value this
            = (inr tt, mkBinary (sub_type this) st' (position this + 1))).
Proof.
  destruct (fst (put uninit byte_value this)) as [e|[]] eqn:Hfst.
  - left. exists e. pose proof (put_raise_keeps_instance _ _ _ _ Hfst).
    destruct (put uninit byte_value this). simpl in *. congruence.
  - right.
    destruct (single_element byte_value) as [e|a] eqn:Ha.
    { revert Hfst. run. rewrite Ha. done. }
    destruct (rejected_by_range_check a) eqn:Hr.
    { revert Hfst. run. rewrite Ha, Hr. done. }
    destruct (store_length (buffer this)) as [e|capacity] eqn:Hcap.
    { revert Hfst. run. rewrite Ha, Hr, Hcap. done. }
    destruct (put_accepted uninit _ _ _ _ Ha Hr Hcap) as (st' & Hset & Heq).
    exists a, capacity, st'. done.
Qed.

Lemma put_keeps_position_le_capacity
    (uninit : Z -> Z) (byte_value : jsval) (this : binary) (capacity : Z) :
  store_length (buffer this) = inr capacity ->
  0 <= position this <= capacity ->
  exists capacity',
    store_length (buffer (snd (put uninit byte_value this))) = inr capacity'
    /\ 0 <= position (snd (put uninit byte_value this)) <= capacity'.
Proof.
  intros Hcap Hpos.
  destruct (put_outcome uninit byte_value this)
    as [[e ->]|(a & capacity' & st' & _ & Hcap' & Hset & ->)]; simpl.
  - eauto.
  - rewrite Hcap in Hcap'. injection Hcap' as <-.
    destruct (Z.ltb_spec (position this) capacity).
    + exists capacity. split; [|lia]. eapply store_set_length; eauto.
    + exists (capacity + BUFFER_SIZE). pose proof BUFFER_SIZE_eq.
      split; [|lia].
      eapply store_set_length; eauto using put_grown_length. lia.
Qed.

Lemma write_inside_keeps_position_le_capacity
    (uninit : Z -> Z) (this : binary) (old bytes : list Z)
    (string : jsval) (offset : option Z) :
  buffer this = SBuffer old ->
  data_bytes string = Some bytes ->
  0 <= default (position this) offset <= len old ->
  position this <= len old ->
  exists capacity',
    store_length (buffer (snd (write uninit string offset this))) = inr capacity'
    /\ position (snd (write uninit string offset this)) <= capacity'.
Proof.
  intros Hbuf Hbytes Ho Hpos.
  rewrite (write_on_Buffer uninit this old bytes string offset Hbuf Hbytes Ho).
  cbv zeta. set (o := default (position this) offset) in *.
  cbn [snd buffer position store_length].
  pose proof (length_write_grown uninit old o (len bytes) ltac:(lia)) as Hlen.
  eexists. split; [reflexivity|].
  assert (o + len bytes <= len (write_grown uninit old o (len bytes))) as Hfit
    by (rewrite Hlen; destruct (Z.ltb_spec (len old) (o + len bytes)); lia).
  rewrite length_splice by lia. rewrite Hlen.
  destruct (Z.ltb_spec (len old) (o + len bytes));
    destruct (Z.ltb_spec (position this) (o + len bytes)); lia.
Qed.

Lemma put_position_ge (uninit : Z -> Z) (byte_value : jsval) (this : binary) :
  position this <= position (snd (put uninit byte_value this)).
Proof.
  destruct (put_outcome uninit byte_value this)
    as [[e ->]|(a & capacity' & st' & _ & _ & _ & ->)]; simpl; lia.
Qed.

Lemma position_grows_bind {A B} (m : M A) (k : A -> M B) :
  position_grows m -> (forall a, position_grows (k a)) -> position_grows (bind m k).
Proof.
  intros Hm Hk this. unfold bind. specialize (Hm this).
  destruct (m this) as [[e|a] this']; simpl in *; [done|].
  specialize (Hk a this'). lia.
Qed.

Lemma position_grows_ret {A} (a : A) : position_grows (ret a).
Proof. intros this. simpl. lia. Qed.

Lemma position_grows_lift {A} (r : exn + A) : position_grows (lift r).
Proof. intros this. simpl. lia. Qed.

Lemma position_grows_get {A} (f : binary -> A) : position_grows (get f).
Proof. intros this. simpl. lia. Qed.

Lemma position_grows_set_buffer (st : store) : position_grows (set_buffer st).
Proof. intros this. simpl. lia. Qed.

Lemma position_grows_advance (end_ : Z) : position_grows (advance_position end_).
Proof. intros this. simpl. destruct (Z.ltb_spec (position this) end_); lia. Qed.

Lemma write_position_ge
    (uninit : Z -> Z) (string : jsval) (offset : option Z) (this : binary) :
  position this <= position (snd (write uninit string offset this)).
Proof.
  revert this. change (position_grows (write uninit string offset)).
  unfold write.
  repeat first
    [ apply position_grows_ret | apply position_grows_lift
    | apply position_grows_get | apply position_grows_set_buffer
    | apply position_grows_advance
    | apply position_grows_bind; [|intros]
    | case_match ].
Qed.

(** X17.  The position of an instance is never negative, whatever calls of
    [put] and [write] it has been through since its construction. *)
Lemma reachable_position_nonneg (uninit : Z -> Z) (this : binary) :
  reachable uninit this -> 0 <= position this.
Proof.
  induction 1 as [buffer_ subType|byte_value this _ IH|string offset this _ IH].
  - destruct (Binary_position_le_capacity uninit buffer_ subType) as (c & _ & H).
    lia.
  - pose proof (put_position_ge uninit byte_value this). lia.
  - pose proof (write_position_ge uninit string offset this). lia.
Qed.

(** ** base64 *)

Lemma forallb_seqZ (p : Z -> bool) (n : Z) :
  forallb p (seqZ 0 n) = true -> forall i, 0 <= i < n -> p i = true.
Proof.
  intros Hall i Hi. rewrite forallb_forall in Hall. apply Hall.
  apply list_elem_of_In, elem_of_seqZ. lia.
Qed.

Lemma forallb_seqZ2 (p : Z -> Z -> bool) (n m : Z) :
  forallb (fun a => forallb (p a) (seqZ 0 m)) (seqZ 0 n) = true ->
  forall a b, 0 <= a < n -> 0 <= b < m -> p a b = true.
Proof.
  intros Hall a b Ha Hb.
  apply (forallb_seqZ (p a) m); [|done].
  by apply (forallb_seqZ (fun a => forallb (p a) (seqZ 0 m)) n).
Qed.

Lemma base64_char_index (i : Z) :
  0 <= i < 64 ->
  base64_index (base64_char i) = i /\ base64_char i <> base64_pad.
Proof.
  intros Hi.
  pose proof (forallb_seqZ
                (fun i => (base64_index (base64_char i) =? i)
                          && negb (base64_char i =? base64_pad)) 64
                ltac:(vm_compute; reflexivity) i Hi) as H.
  apply andb_true_iff in H as [H1 H2].
  apply Z.eqb_eq in H1. apply negb_true_iff, Z.eqb_neq in H2. done.
Qed.

Lemma sextet_range (a b : Z) :
  0 <= a < 256 -> 0 <= b < 256 ->
  0 <= sextet1 a < 64 /\ 0 <= sextet2 a b < 64
  /\ 0 <= sextet3 a b < 64 /\ 0 <= sextet4 a < 64.
Proof.
  intros Ha Hb.
  pose proof (forallb_seqZ2
                (fun a b => (0 <=? sextet1 a) && (sextet1 a <? 64)
                            && (0 <=? sextet2 a b) && (sextet2 a b <? 64)
                            && (0 <=? sextet3 a b) && (sextet3 a b <? 64)
                            && (0 <=? sextet4 a) && (sextet4 a <? 64)) 256 256
                ltac:(vm_compute; reflexivity) a b Ha Hb) as H.
  repeat (apply andb_true_iff in H as [H ?]). lia.
Qed.

Lemma octet1_sextet (a b : Z) :
  0 <= a < 256 -> 0 <= b < 256 -> octet1 (sextet1 a) (sextet2 a b) = a.
Proof.
  intros Ha Hb. apply Z.eqb_eq.
  exact (forallb_seqZ2 (fun a b => octet1 (sextet1 a) (sextet2 a b) =? a) 256 256
           ltac:(vm_compute; reflexivity) a b Ha Hb).
Qed.

Lemma sextet2_low (a b : Z) :
  0 <= a < 256 -> 0 <= b < 256 -> Z.land (sextet2 a b) 15 = Z.shiftr b 4.
Proof.
  intros Ha Hb. apply Z.eqb_eq.
  exact (forallb_seqZ2 (fun a b => Z.land (sextet2 a b) 15 =? Z.shiftr b 4) 256 256
           ltac:(vm_compute; reflexivity) a b Ha Hb).
Qed.

Lemma octet2_sextet (a b c : Z) :
  0 <= a < 256 -> 0 <= b < 256 -> 0 <= c < 256 ->
  octet2 (sextet2 a b) (sextet3 b c) = b.
Proof.
  intros Ha Hb Hc. unfold octet2. rewrite sextet2_low by done. apply Z.eqb_eq.
  exact (forallb_seqZ2
           (fun b c => Z.lor (Z.shiftl (Z.shiftr b 4) 4) (Z.shiftr (sextet3 b c) 2) =? b)
           256 256 ltac:(vm_compute; reflexivity) b c Hb Hc).
Qed.

Lemma octet3_sextet (b c : Z) :
  0 <= b < 256 -> 0 <= c < 256 -> octet3 (sextet3 b c) (sextet4 c) = c.
Proof.
  intros Hb Hc. apply Z.eqb_eq.
  exact (forallb_seqZ2 (fun b c => octet3 (sextet3 b c) (sextet4 c) =? c) 256 256
           ltac:(vm_compute; reflexivity) b c Hb Hc).
Qed.

Lemma list_ind_by3 {A} (P : list A -> Prop) :
  P [] -> (forall a, P [a]) -> (forall a b, P [a; b]) ->
  (forall a b c t, P t -> P (a :: b :: c :: t)) ->
  forall l, P l.
Proof.
  intros H0 H1 H2 H3. fix IH 1.
  intros [|a [|b [|c t]]]; [apply H0 | apply H1 | apply H2 | apply H3, IH].
Qed.


(** Decoding the encoding of a list of bytes gives the list back. *)
Lemma base64_decode_encode (l : list Z) :
  is_bytes l -> base64_decode (base64_encode l) = l.
Proof.
  induction l as [|a|a b|a b c t IH] using list_ind_by3; intros Hl.
  - reflexivity.
  - apply Forall_cons in Hl as [Ha _].
    cbn [base64_encode base64_decode]. rewrite Z.eqb_refl.
    destruct (sextet_range a 0 Ha ltac:(lia)) as (R1 & R2 & _).
    rewrite (proj1 (base64_char_index _ R1)), (proj1 (base64_char_index _ R2)).
    by rewrite octet1_sextet by lia.
  - apply Forall_cons in Hl as [Ha Hl]. apply Forall_cons in Hl as [Hb _].
    cbn [base64_encode base64_decode]. rewrite Z.eqb_refl.
    destruct (sextet_range a b Ha Hb) as (R1 & R2 & _).
    destruct (sextet_range b 0 Hb ltac:(lia)) as (_ & _ & R3 & _).
    destruct (base64_char_index _ R1) as [I1 _].
    destruct (base64_char_index _ R2) as [I2 _].
    destruct (base64_char_index _ R3) as [I3 P3].
    rewrite I1, I2, I3.
    destruct (Z.eqb_spec (base64_char (sextet3 b 0)) base64_pad); [done|].
    rewrite octet1_sextet, (octet2_sextet a b 0) by lia. done.
  - apply Forall_cons in Hl as [Ha Hl]. apply Forall_cons in Hl as [Hb Hl].
    apply Forall_cons in Hl as [Hc Hl].
    cbn [base64_encode base64_decode].
    destruct (sextet_range a b Ha Hb) as (R1 & R2 & _).
    destruct (sextet_range b c Hb Hc) as (_ & _ & R3 & _).
    destruct (sextet_range c 0 Hc ltac:(lia)) as (_ & _ & _ & R4).
    destruct (base64_char_index _ R1) as [I1 _].
    destruct (base64_char_index _ R2) as [I2 _].
    destruct (base64_char_index _ R3) as [I3 P3].
    destruct (base64_char_index _ R4) as [I4 P4].
    rewrite I1, I2, I3, I4.
    destruct (Z.eqb_spec (base64_char (sextet3 b c)) base64_pad); [done|].
    destruct (Z.eqb_spec (base64_char (sextet4 c)) base64_pad); [done|].
    rewrite octet1_sextet, octet2_sextet, octet3_sextet by lia.
    by rewrite IH.
Qed.

(** ** [toJSON] *)



(** ** The claims where the code does otherwise *)

(** C3 fails on the code: on the 3-byte value [10,20,30], [read(1, 5)] asks
    for [1, 6) and gets the two bytes [20,30] with no error. *)
Lemma read_past_capacity_not_rejected :
  ~ read_rejects_overrun (Binary zero_fill (VBuffer [10; 20; 30]) None) 1 (Some 5).
Proof.
  intros Hclaim. destruct Hclaim as [e He].
  - exists 3. split; [reflexivity | simpl; lia].
  - discriminate He.
Qed.

(** C6 fails on the code: on the 3-byte value [1,2,3], [write([9,9,9,9], 4)]
    leaves a store of 7 bytes, and the last byte of the data has no place in
    it. *)
Lemma write_beyond_capacity_drops_data :
  ~ write_as_specified zero_fill (Binary zero_fill (VBuffer [1; 2; 3]) None)
      [9; 9; 9; 9] 4.
Proof.
  intros (_ & Hdata & _). specialize (Hdata 3 ltac:(simpl; lia)).
  discriminate Hdata.
Qed.


Lemma toJSON_of_Array (uninit : Z -> Z) :
  toJSON (Binary uninit (VArray [1; 2; 3]) None) = lit "1,2,3"
  /\ base64_encode [1; 2; 3] = lit "AQID".
Proof. split; reflexivity. Qed.

(** ** When [put] raises *)

Lemma char_to_number_range (c x : Z) :
  char_to_number c = Some x -> 0 <= x <= 9.
Proof.
  unfold char_to_number.
  destruct (Z.leb_spec 48 c), (Z.leb_spec c 57); simpl;
    try destruct (is_white_space c); intros [= <-]; lia.
Qed.

Lemma char_never_rejected (c : Z) :
  js_lt (char_to_number c) 0 = false /\ js_gt (char_to_number c) 255 = false.
Proof.
  destruct (char_to_number c) as [x|] eqn:Hx; simpl; [|done].
  apply char_to_number_range in Hx. split; [apply Z.ltb_ge | apply Z.ltb_ge]; lia.
Qed.

Lemma put_raises_on_spec (byte_value : jsval) :
  put_raises_on byte_value = true
  <-> (exists e, single_element byte_value = inl e)
      \/ (exists a, single_element byte_value = inr a
                    /\ rejected_by_range_check a = true).
Proof.
  assert (forall (c c' : Z) l, negb (len (c :: c' :: l) =? 1) = true) as Hlong
    by (intros; apply negb_true_iff, Z.eqb_neq; cbn [length]; lia).
  destruct byte_value as [|n|[|c [|? ?]]|[|c [|? ?]]|[|c [|? ?]]|[|c [|? ?]]];
    cbn [put_raises_on single_element]; rewrite ?Hlong;
    try (split; [intros _; left; eauto | done]).
  - split; [intros H; right; eauto | intros [[e [=]]|(a & [= <-] & H)]; done].
  - destruct (char_never_rejected c) as [H1 H2].
    split; [done | intros [[e [=]]|(a & [= <-] & H)]].
    unfold rejected_by_range_check in H. simpl in H. rewrite H1, H2 in H. done.
  - destruct (char_never_rejected (if c <? 128 then c else 0xFFFD)) as [H1 H2].
    split; [done | intros [[e [=]]|(a & [= <-] & H)]].
    unfold rejected_by_range_check in H. simpl in H. rewrite H1, H2 in H. done.
  - split; [intros H; right; eauto | intros [[e [=]]|(a & [= <-] & H)]; done].
  - split; [intros H; right; eauto | intros [[e [=]]|(a & [= <-] & H)]; done].
Qed.

(** On an instance whose store is not null, [put] raises exactly on the
    arguments of [put_raises_on]: among the numbers, those above 255 and no
    negative one. *)
Lemma put_raises_iff (uninit : Z -> Z) (byte_value : jsval) (this : binary) :
  buffer this <> SNull ->
  (exists e, fst (put uninit byte_value this) = inl e)
  <-> put_raises_on byte_value = true.
Proof.
  intros Hnull. rewrite put_raises_on_spec. split.
  - intros [e He]. apply put_raises in He as [H|[(a & Ha & Hr & _)|H]]; eauto.
    destruct (buffer this); done.
  - intros [[e He]|(a & Ha & Hr)]; run; rewrite He || rewrite Ha, Hr; eauto.
Qed.

(** ** Further properties of [put] *)

(** X1.  On an instance whose store is not null, [put] raises on a number
    exactly when the number is above 255, on a string or a Buffer exactly
    when the length is not 1, and on an Array or Uint8Array exactly when it
    is not a single element in 0..255. *)
Theorem put_rejects_exactly (uninit : Z -> Z) (this : binary) :
  buffer this <> SNull ->
  (forall n, (exists e, fst (put uninit (VNum n) this) = inl e) <-> 255 < n)
  /\ (forall s, (exists e, fst (put uninit (VStr s) this) = inl e) <-> len s <> 1)
  /\ (forall l, (exists e, fst (put uninit (VBuffer l) this) = inl e) <-> len l <> 1)
  /\ (forall l, (exists e, fst (put uninit (VArray l) this) = inl e)
                <-> ~ exists n, l = [n] /\ 0 <= n <= 255)
  /\ (forall l, (exists e, fst (put uninit (VUint8 l) this) = inl e)
                <-> ~ exists n, l = [n] /\ 0 <= n <= 255).
Proof.
  intros Hnull.
  assert (forall l : list Z,
             match l with [n] => (n <? 0) || (255 <? n) | _ => true end = true
             <-> ~ exists n, l = [n] /\ 0 <= n <= 255) as Hseq.
  { intros [|n [|m t]].
    - split; [intros _ (n & [=] & _) | done].
    - split.
      + intros H (n' & [= <-] & Hn). apply orb_true_iff in H as [H|H];
          apply Z.ltb_lt in H; lia.
      + intros H. apply orb_true_iff.
        destruct (Z.ltb_spec n 0); [by left|].
        destruct (Z.ltb_spec 255 n); [by right|].
        destruct H. exists n. split; [done | lia].
    - split; [intros _ (n' & [=] & _) | done]. }
  repeat split; try (intros H; apply put_raises_iff in H; [revert H | done]);
    try (intros H; apply put_raises_iff; [done | revert H]);
    cbn [put_raises_on]; rewrite ?negb_true_iff, ?Z.eqb_neq, ?Z.ltb_lt;
    try done; apply Hseq.
Qed.

Lemma put_rejects_exactly_witness :
  (exists e, fst (put zero_fill (VNum 256) (Binary zero_fill VNull None)) = inl e)
  <-> 255 < 256.
Proof.
  exact (proj1 (put_rejects_exactly zero_fill (Binary zero_fill VNull None)
                  ltac:(discriminate)) 256).
Defined.

(** X2.  A [put] that raises has changed nothing: the instance is the one
    from before the call.  What it raises is one of the two errors of lines
    73 and 74, or the TypeError of reading a property of [null] or
    [undefined]. *)
Theorem put_failure_leaves_instance
    (uninit : Z -> Z) (byte_value : jsval) (this : binary) (e : exn) :
  fst (put uninit byte_value this) = inl e ->
  snd (put uninit byte_value this) = this
  /\ (e = Error msg_single \/ e = Error msg_range \/ exists m, e = TypeError m).
Proof.
  intros Hput. split; [by eapply put_raise_keeps_instance|].
  apply put_raises in Hput as [H|[(a & _ & _ & ->)|H]]; [|by auto|].
  - destruct byte_value as [|n|[|c [|? ?]]|[|c [|? ?]]|[|c [|? ?]]|[|c [|? ?]]];
      simpl in H; try discriminate H; injection H as <-; eauto.
  - destruct (buffer this); simpl in H; try done. injection H as <-. eauto.
Qed.

Lemma put_failure_leaves_instance_witness :
  snd (put zero_fill (VStr (lit "ab")) (Binary zero_fill (VBuffer [1; 2; 3]) None))
  = Binary zero_fill (VBuffer [1; 2; 3]) None.
Proof.
  exact (proj1 (put_failure_leaves_instance zero_fill (VStr (lit "ab"))
                  (Binary zero_fill (VBuffer [1; 2; 3]) None)
                  (Error msg_single) eq_refl)).
Defined.

(** One byte appended to a Buffer-backed instance. *)
Lemma put_byte_on_Buffer (uninit : Z -> Z) (this : binary) (l : list Z) (n : Z) :
  buffer this = SBuffer l ->
  0 <= position this <= len l ->
  0 <= n <= 255 ->
  exists l',
    put uninit (VNum n) this
    = (inr tt, mkBinary (sub_type this) (SBuffer l') (position this + 1))
    /\ position this + 1 <= len l'
    /\ take (Z.to_nat (position this + 1)) l'
       = take (Z.to_nat (position this)) l ++ [n].
Proof.
  intros Hbuf Hpos Hn.
  assert (rejected_by_range_check (ArgNum n) = false) as Hr.
  { unfold rejected_by_range_check. simpl. apply Z.ltb_ge. lia. }
  assert (store_length (buffer this) = inr (len l)) as Hcap by (by rewrite Hbuf).
  destruct (put_accepted uninit (VNum n) (ArgNum n) this (len l) eq_refl Hr Hcap)
    as (st' & Hset & Hput).
  assert (forall G : list Z,
             position this < len G ->
             take (Z.to_nat (position this)) G = take (Z.to_nat (position this)) l ->
             position this + 1 <= len (buf_set G (position this) n)
             /\ take (Z.to_nat (position this + 1)) (buf_set G (position this) n)
                = take (Z.to_nat (position this)) l ++ [n]) as Hstep.
  { intros G HG Htake. unfold buf_set.
    destruct (Z.ltb_spec (position this) 0); [lia|].
    rewrite length_insert. split; [lia|].
    replace (Z.to_nat (position this + 1)) with (S (Z.to_nat (position this))) by lia.
    rewrite (take_S_r _ _ (to_uint8 n)) by (apply list_lookup_insert_eq; lia).
    rewrite take_insert_ge by lia. rewrite Htake, to_uint8_byte by lia. done. }
  rewrite Hput. rewrite Hbuf in Hset. simpl in Hset.
  destruct (Z.ltb_spec (position this) (len l)).
  - injection Hset as <-. eexists. split; [done|]. by apply Hstep.
  - simpl in Hset. injection Hset as <-. eexists. split; [done|].
    apply Hstep.
    + rewrite length_app, length_drop.
      pose proof (length_alloc uninit (BUFFER_SIZE + len l)).
      pose proof BUFFER_SIZE_eq. lia.
    + by rewrite take_app_le by lia.
Qed.

Lemma put_all_on_Buffer (uninit : Z -> Z) (bytes : list Z) :
  is_bytes bytes ->
  forall (this : binary) (l : list Z),
    buffer this = SBuffer l ->
    0 <= position this <= len l ->
    exists l',
      buffer (put_all uninit bytes this) = SBuffer l'
      /\ position (put_all uninit bytes this) = position this + len bytes
      /\ position this + len bytes <= len l'
      /\ take (Z.to_nat (position this + len bytes)) l'
         = take (Z.to_nat (position this)) l ++ bytes.
Proof.
  induction 1 as [|n bytes Hn _ IH]; intros this l Hbuf Hpos.
  - exists l. simpl. rewrite Z.add_0_r, app_nil_r. repeat split; [done | lia].
  - destruct (put_byte_on_Buffer uninit this l n Hbuf Hpos ltac:(lia))
      as (l1 & Hput & Hlen1 & Htake1).
    cbn [put_all foldl]. rewrite Hput. cbn [snd].
    destruct (IH (mkBinary (sub_type this) (SBuffer l1) (position this + 1)) l1
                 eq_refl ltac:(simpl; lia))
      as (l' & Hbuf' & Hpos' & Hlen' & Htake').
    fold (put_all uninit bytes
            (mkBinary (sub_type this) (SBuffer l1) (position this + 1))).
    cbn [position] in *.
    exists l'. rewrite Hbuf', Hpos'. cbn [length].
    repeat split; [lia | lia |].
    replace (position this + Z.of_nat (S (length bytes)))
      with (position this + 1 + len bytes) by lia.
    rewrite Htake', Htake1, <- app_assoc. done.
Qed.

(** X3.  Appending bytes one by one with [put] to a Buffer-backed instance
    whose position is within its capacity appends them to the content that
    [value(false)] returns, however often the store has to grow on the way;
    [length()] grows by the number of bytes. *)
Theorem put_all_appends_to_value
    (uninit : Z -> Z) (bytes : list Z) (this : binary) (l : list Z) :
  is_bytes bytes ->
  buffer this = SBuffer l ->
  0 <= position this <= len l ->
  value (put_all uninit bytes this) None
  = inr (RStr (take (Z.to_nat (position this)) l ++ bytes))
  /\ value this None = inr (RStr (take (Z.to_nat (position this)) l))
  /\ Binary_length (put_all uninit bytes this) = Binary_length this + len bytes.
Proof.
  intros Hbytes Hbuf Hpos.
  destruct (put_all_on_Buffer uninit bytes Hbytes this l Hbuf Hpos)
    as (l' & Hbuf' & Hpos' & Hlen' & Htake').
  unfold value, Binary_length, buf_toString_binary.
  rewrite Hbuf', Hpos', Hbuf. simpl. by rewrite Htake'.
Qed.

Lemma put_all_appends_to_value_witness :
  value (put_all zero_fill [72; 105] (Binary zero_fill VNull None)) None
  = inr (RStr (lit "Hi")).
Proof.
  exact (proj1 (put_all_appends_to_value zero_fill [72; 105]
                  (Binary zero_fill VNull None) (alloc zero_fill 256)
                  ltac:(repeat constructor; lia) eq_refl
                  ltac:(vm_compute; split; discriminate))).
Defined.

(** X7.  An instance built by the constructor and [put] alone always has a
    store, and its position lies between 0 and the capacity of the store. *)
Theorem built_by_put_position_le_capacity (uninit : Z -> Z) (this : binary) :
  built_by_put uninit this ->
  exists capacity,
    store_length (buffer this) = inr capacity
    /\ 0 <= position this <= capacity.
Proof.
  induction 1 as [buffer_ subType|byte_value this _ (capacity & Hcap & Hpos)].
  - apply Binary_position_le_capacity.
  - eapply put_keeps_position_le_capacity; eauto.
Qed.

Lemma built_by_put_position_le_capacity_witness :
  exists capacity,
    store_length (buffer (snd (put zero_fill (VNum 7)
                                   (Binary zero_fill (VArray [1; 2]) None))))
    = inr capacity
    /\ 0 <= position (snd (put zero_fill (VNum 7)
                               (Binary zero_fill (VArray [1; 2]) None)))
       <= capacity.
Proof.
  apply (built_by_put_position_le_capacity zero_fill).
  apply built_put, built_new.
Defined.

(** ** Further properties of [value], [read] and the constructor *)

Lemma slice_prefix {A} (l : list A) (n : Z) :
  0 <= n -> slice l 0 n = take (Z.to_nat n) l.
Proof.
  intros Hn. rewrite <- (Z.add_0_l n) at 1.
  rewrite slice_forward by lia. by rewrite drop_0.
Qed.

Lemma slice_whole {A} (l : list A) : slice l 0 (len l) = l.
Proof. rewrite slice_prefix by lia. rewrite Nat2Z.id. by apply take_ge. Qed.

(** X4.  Round trip of a sequence: made from a Buffer, a Uint8Array or an
    Array, [value(true)] returns a sequence of the same kind with the same
    elements, and [length()] is the number of elements. *)
Theorem value_raw_round_trip (uninit : Z -> Z) (l : list Z) (subType : option Z) :
  value (Binary uninit (VBuffer l) subType) (Some true) = inr (RSeq (SBuffer l))
  /\ value (Binary uninit (VUint8 l) subType) (Some true) = inr (RSeq (SUint8 l))
  /\ value (Binary uninit (VArray l) subType) (Some true)
     = inr (RSeq (SArray (Some <$> l)))
  /\ Binary_length (Binary uninit (VBuffer l) subType) = len l
  /\ Binary_length (Binary uninit (VUint8 l) subType) = len l
  /\ Binary_length (Binary uninit (VArray l) subType) = len l.
Proof.
  unfold value, Binary_length. simpl.
  rewrite !slice_whole.
  pose proof (slice_whole (Some <$> l)) as H. rewrite length_fmap in H.
  rewrite H. repeat split.
Qed.

(** X5.  On a store that is not null and with a position that is not
    negative, [value(true)] and [read(0)] both return the first [position]
    slots of the store (all of them when the position is past the
    capacity), as a sequence of the kind of the store. *)
Theorem value_raw_is_logical_content (this : binary) :
  buffer this <> SNull ->
  0 <= position this ->
  value this (Some true)
  = inr (RSeq (store_take (Z.to_nat (position this)) (buffer this)))
  /\ read this 0 None
     = inr (store_take (Z.to_nat (position this)) (buffer this)).
Proof.
  intros Hnull Hpos. rewrite read_unfold. unfold value. simpl.
  destruct (buffer this) as [l|l|l|]; try done; simpl;
    rewrite !slice_prefix by done; done.
Qed.

Lemma value_raw_is_logical_content_witness :
  read (snd (put zero_fill (VNum 7) (Binary zero_fill (VBuffer [1; 2; 3]) None)))
       0 None
  = inr (SBuffer [1; 2; 3; 7]).
Proof.
  exact (proj2 (value_raw_is_logical_content
                  (snd (put zero_fill (VNum 7)
                            (Binary zero_fill (VBuffer [1; 2; 3]) None)))
                  ltac:(discriminate) ltac:(vm_compute; discriminate))).
Defined.

Lemma fmap_seqZ_lookup {A B} (f : Z -> B) (g : A -> B) (l : list A) :
  (forall i x, l !! i = Some x -> f (Z.of_nat i) = g x) ->
  f <$> seqZ 0 (len l) = g <$> l.
Proof.
  intros Hfg. apply list_eq. intros i. rewrite !list_lookup_fmap.
  destruct (l !! i) as [x|] eqn:Hx.
  - apply lookup_lt_Some in Hx as Hi.
    rewrite lookup_seqZ_lt by lia. simpl. f_equal. by apply Hfg.
  - apply lookup_ge_None in Hx. rewrite lookup_seqZ_ge by lia. done.
Qed.

Lemma to_uint16_code_units (l : list Z) :
  Forall (fun c => 0 <= c < 65536) l -> to_uint16 <$> l = l.
Proof.
  induction 1 as [|c t Hc _ IH]; [done|].
  rewrite fmap_cons, IH. unfold to_uint16. by rewrite Z.mod_small by lia.
Qed.

(** X6.  Made from an Array or a Uint8Array of numbers in 0..65535, the
    string that [value(false)] builds with [String.fromCharCode] has these
    numbers as its characters, in order. *)
Theorem value_of_sequence_is_its_characters
    (uninit : Z -> Z) (l : list Z) (subType : option Z) :
  Forall (fun c => 0 <= c < 65536) l ->
  value (Binary uninit (VArray l) subType) None = inr (RStr l)
  /\ value (Binary uninit (VUint8 l) subType) None = inr (RStr l).
Proof.
  intros Hl. unfold value, convertArraytoUtf8BinaryString. simpl.
  rewrite Z.sub_0_r.
  rewrite (fmap_seqZ_lookup _ to_uint16 l), (fmap_seqZ_lookup _ to_uint16 l).
  - by rewrite to_uint16_code_units.
  - intros i x Hx. unfold store_get.
    destruct (Z.ltb_spec (Z.of_nat i) 0); [lia|].
    by rewrite Nat2Z.id, Hx.
  - intros i x Hx. unfold store_get.
    destruct (Z.ltb_spec (Z.of_nat i) 0); [lia|].
    by rewrite Nat2Z.id, list_lookup_fmap, Hx.
Qed.

Lemma value_of_sequence_is_its_characters_witness :
  value (Binary zero_fill (VArray [72; 8364]) None) None = inr (RStr [72; 8364]).
Proof.
  exact (proj1 (value_of_sequence_is_its_characters zero_fill [72; 8364] None
                  ltac:(repeat constructor; lia))).
Defined.

(** X8.  Round trip of an ASCII string: made from a string whose characters
    are all below 128, the store holds one byte per character, the position
    and the capacity are the length of the string, and [value(false)],
    [value(true)] and [toString('binary')] give the characters back. *)
Theorem ascii_string_round_trip
    (uninit : Z -> Z) (s : jsstring) (subType : option Z) :
  is_ascii s ->
  buffer (Binary uninit (VStr s) subType) = SBuffer s
  /\ position (Binary uninit (VStr s) subType) = len s
  /\ value (Binary uninit (VStr s) subType) None = inr (RStr s)
  /\ value (Binary uninit (VStr s) subType) (Some true) = inr (RSeq (SBuffer s))
  /\ toString (Binary uninit (VStr s) subType) EncBinary = s.
Proof.
  intros Hs. rewrite Binary_of_ascii_string by done.
  unfold value, toString, buf_toString_binary. simpl.
  rewrite slice_whole, Nat2Z.id, take_ge by lia. done.
Qed.

Lemma ascii_string_round_trip_witness :
  value (Binary zero_fill (VStr (lit "tingo")) None) None
  = inr (RStr (lit "tingo")).
Proof.
  exact (proj1 (proj2 (proj2 (ascii_string_round_trip zero_fill (lit "tingo") None
                                ltac:(repeat constructor; lia))))).
Defined.

Lemma utf8_same_length_ascii (s : jsstring) :
  Forall (fun c => 0 <= c) s ->
  length (utf8_encode s) = length s ->
  is_ascii s.
Proof.
  assert (forall n s, (length s <= n)%nat ->
                      Forall (fun c => 0 <= c) s ->
                      length (utf8_encode s) = length s -> is_ascii s) as Haux;
    [|by apply (Haux (length s))].
  clear s. induction n as [|n IH]; intros s Hn Hs Hlen.
  { destruct s; [constructor | simpl in Hn; lia]. }
  destruct s as [|c t]; [constructor|].
  apply Forall_cons in Hs as [Hc Ht].
  simpl in Hn. cbn [utf8_encode] in Hlen.
  pose proof (length_utf8_encode t) as Hge.
  destruct (is_high_surrogate c) eqn:Hhigh.
  - destruct t as [|d t']; [simpl in Hlen; lia|].
    destruct (is_low_surrogate d) eqn:Hlow.
    + pose proof (length_utf8_encode t').
      unfold is_high_surrogate, is_low_surrogate in *.
      pose proof (proj2 (length_utf8_code_point
                           (0x10000 + (c - 0xD800) * 0x400 + (d - 0xDC00)))
                        ltac:(lia)) as H4.
      rewrite length_app, H4 in Hlen. simpl in Hlen. lia.
    + rewrite length_app in Hlen. simpl in Hlen, Hge. lia.
  - destruct (is_low_surrogate c).
    + rewrite length_app in Hlen. simpl in Hlen. lia.
    + rewrite length_app in Hlen. simpl in Hlen.
      pose proof (proj1 (length_utf8_code_point c)) as H1.
      assert (length (utf8_code_point c) = 1%nat) as Hone by lia.
      constructor.
      * unfold utf8_code_point in Hone.
        destruct (Z.ltb_spec c 0x80); [lia|].
        destruct (c <? 0x800); [simpl in Hone; lia|].
        destruct (c <? 0x10000); simpl in Hone; lia.
      * apply (IH t); [lia | done | lia].
Qed.

(** X9.  Made from a string, the position is the number of code units of
    the string and the capacity the number of bytes of its UTF-8 encoding,
    which is never smaller; the two are equal exactly when every character
    is below 128. *)
Theorem string_capacity_is_UTF8_length
    (uninit : Z -> Z) (s : jsstring) (subType : option Z) :
  Forall (fun c => 0 <= c) s ->
  store_length (buffer (Binary uninit (VStr s) subType))
  = inr (len (utf8_encode s))
  /\ position (Binary uninit (VStr s) subType) = len s
  /\ len s <= len (utf8_encode s)
  /\ (len (utf8_encode s) = len s <-> is_ascii s).
Proof.
  intros Hs. repeat split.
  - pose proof (length_utf8_encode s). lia.
  - intros Hlen. apply utf8_same_length_ascii; [done | lia].
  - intros Hascii. by rewrite utf8_encode_ascii.
Qed.

Lemma string_capacity_is_UTF8_length_witness :
  store_length (buffer (Binary zero_fill (VStr [104; 233]) None)) = inr 3.
Proof.
  exact (proj1 (string_capacity_is_UTF8_length zero_fill [104; 233] None
                  ltac:(repeat constructor; lia))).
Defined.

(** ** Further properties of [write] *)

(** The first step of [write] on a Buffer store: the store it continues
    with is [write_grown]. *)
Lemma write_growth_step {A} (uninit : Z -> Z) (this : binary) (old : list Z)
    (o n : Z) (k : store -> M A) :
  buffer this = SBuffer old ->
  0 <= n ->
  ((if len old <? o + n
    then buffer' <- lift (buf_copy old (alloc uninit (len old + n)) 0) ;;
         set_buffer (SBuffer buffer')
    else ret tt) ;;; buf <- get buffer ;; k buf) this
  = k (SBuffer (write_grown uninit old o n))
      (mkBinary (sub_type this) (SBuffer (write_grown uninit old o n))
                (position this)).
Proof.
  intros Hbuf Hn. unfold write_grown. run.
  destruct (len old <? o + n).
  - rewrite buf_copy_prefix
      by (pose proof (length_alloc uninit (len old + n)); lia).
    reflexivity.
  - simpl. rewrite <- Hbuf. by destruct this.
Qed.

Lemma buf_copy_length (src target t : list Z) (offset : Z) :
  buf_copy src target offset = inr t -> length t = length target.
Proof.
  unfold buf_copy.
  destruct (Z.ltb_spec offset 0); [done|].
  destruct (Z.leb_spec (len target) offset); simpl; [by intros [= <-]|].
  destruct (Z.eqb_spec (len src) 0); [by intros [= <-]|].
  intros [= <-]. rewrite !length_app, !length_take, length_drop. lia.
Qed.


Lemma buf_write_binary_length (target t : list Z) (s : jsstring) (offset : Z) :
  buf_write_binary target s offset = inr t -> length t = length target.
Proof. unfold buf_write_binary. discriminate. Qed.

Lemma assign_loop_Buffer_total (vals l : list Z) (offset : Z) :
  exists l', assign_loop (SBuffer l) offset vals = inr (SBuffer l')
             /\ length l' = length l.
Proof.
  revert l offset. induction vals as [|v vs IH]; intros l offset; simpl.
  - eauto.
  - destruct (IH (buf_set l offset v) (offset + 1)) as (l' & -> & Hlen).
    exists l'. split; [done|]. rewrite Hlen. unfold buf_set.
    destruct (offset <? 0); by rewrite ?length_insert.
Qed.


Lemma take_splice (l bytes : list Z) (offset : Z) :
  0 <= offset -> offset + len bytes <= len l ->
  take (Z.to_nat (offset + len bytes)) (splice l offset bytes)
  = take (Z.to_nat offset) l ++ bytes.
Proof.
  intros H0 Hfit. unfold splice.
  rewrite app_assoc, take_app_length'; [done|].
  rewrite length_app, length_take. lia.
Qed.

Lemma drop_splice (l bytes : list Z) (offset : Z) :
  0 <= offset -> offset + len bytes <= len l ->
  drop (Z.to_nat offset) (splice l offset bytes)
  = bytes ++ drop (Z.to_nat (offset + len bytes)) l.
Proof.
  intros H0 Hfit. unfold splice.
  rewrite drop_app_length'; [done|]. rewrite length_take. lia.
Qed.

Lemma take_write_grown (uninit : Z -> Z) (old : list Z) (offset n : Z) (k : nat) :
  (k <= length old)%nat ->
  take k (write_grown uninit old offset n) = take k old.
Proof.
  intros Hk. unfold write_grown.
  destruct (len old <? offset + n); [|done]. by apply take_app_le.
Qed.

(** X10.  [write] with the offset left out appends: on a Buffer-backed
    instance whose position is within its capacity, and for data that is a
    Buffer or an Array of numbers, the call succeeds, [length()] grows by
    the length of the data, and [value(false)] returns the old content
    followed by the bytes of the data (the numbers of an Array modulo
    256). *)
Theorem write_appends_at_cursor
    (uninit : Z -> Z) (this : binary) (old bytes : list Z) (string : jsval) :
  buffer this = SBuffer old ->
  data_bytes string = Some bytes ->
  0 <= position this <= len old ->
  fst (write uninit string None this) = inr tt
  /\ Binary_length (snd (write uninit string None this))
     = Binary_length this + len bytes
  /\ value (snd (write uninit string None this)) None
     = inr (RStr (take (Z.to_nat (position this)) old ++ bytes)).
Proof.
  intros Hbuf Hbytes Hpos.
  rewrite (write_on_Buffer uninit this old bytes string None Hbuf Hbytes Hpos).
  cbv zeta. change (default (position this) None) with (position this).
  unfold Binary_length, value, buf_toString_binary.
  cbn [fst snd buffer position default].
  pose proof (length_write_grown uninit old (position this) (len bytes)
                ltac:(lia)) as Hlen.
  destruct (Z.ltb_spec (position this) (position this + len bytes)) as [Hn|Hn].
  - repeat split.
    rewrite take_splice, take_write_grown by
        (rewrite ?Hlen; try destruct (Z.ltb_spec (len old)
                                        (position this + len bytes)); lia).
    done.
  - assert (bytes = []) as -> by (destruct bytes; simpl in *; [done | lia]).
    rewrite splice_nil, take_write_grown by lia.
    simpl. rewrite app_nil_r. repeat split. lia.
Qed.

Lemma write_appends_at_cursor_witness :
  value (snd (write zero_fill (VBuffer (lit "go")) None
                    (Binary zero_fill (VBuffer (lit "tin")) None))) None
  = inr (RStr (lit "tingo")).
Proof.
  exact (proj2 (proj2 (write_appends_at_cursor zero_fill
                         (Binary zero_fill (VBuffer (lit "tin")) None)
                         (lit "tin") (lit "go") (VBuffer (lit "go"))
                         eq_refl eq_refl ltac:(simpl; lia)))).
Defined.

(** X11.  What [write] puts into a Buffer-backed instance, [read] gets
    back: after [write(data, offset)] with [0 <= offset <= capacity] and
    data that is a Buffer or an Array of numbers and is not empty,
    [read(offset, data.length)] returns the bytes of the data (the numbers
    of an Array modulo 256). *)
Theorem read_after_write
    (uninit : Z -> Z) (this : binary) (old bytes : list Z)
    (string : jsval) (offset : Z) :
  buffer this = SBuffer old ->
  data_bytes string = Some bytes ->
  0 <= offset <= len old ->
  0 < len bytes ->
  read (snd (write uninit string (Some offset) this)) offset (Some (len bytes))
  = inr (SBuffer bytes).
Proof.
  intros Hbuf Hbytes Ho Hn.
  pose proof (write_on_Buffer uninit this old bytes string (Some offset)
                Hbuf Hbytes Ho) as Hw.
  cbv zeta in Hw. change (default (position this) (Some offset)) with offset in Hw.
  rewrite Hw. clear Hw. rewrite read_unfold.
  cbn [snd buffer store_slice spec_read_length].
  destruct (Z.ltb_spec 0 (len bytes)); [|lia].
  pose proof (length_write_grown uninit old offset (len bytes) ltac:(lia)) as Hlen.
  rewrite slice_forward, drop_splice by
      (rewrite ?Hlen; try destruct (Z.ltb_spec (len old) (offset + len bytes)); lia).
  rewrite Nat2Z.id, take_app_length. done.
Qed.

Lemma read_after_write_witness :
  read (snd (write zero_fill (VArray [7; 8; 9]) (Some 2)
                   (Binary zero_fill (VBuffer [1; 2; 3]) None))) 2 (Some 3)
  = inr (SBuffer [7; 8; 9]).
Proof.
  exact (read_after_write zero_fill (Binary zero_fill (VBuffer [1; 2; 3]) None)
           [1; 2; 3] [7; 8; 9] (VArray [7; 8; 9]) 2
           eq_refl eq_refl ltac:(simpl; lia) ltac:(simpl; lia)).
Defined.



(** X13.  On a store that is an Array or a Uint8Array, a [write] for which
    [offset + data.length] exceeds the capacity makes no new store: it
    leaves [this.buffer] null.  When the data is a Buffer, an Array or a
    string and is not empty, the call then raises a TypeError and the
    position stays as it was. *)
Theorem write_growing_other_store_loses_it
    (uninit : Z -> Z) (this : binary) (string : jsval) (offset : option Z)
    (capacity n : Z) :
  isBuffer (buffer this) = false ->
  store_length (buffer this) = inr capacity ->
  data_length string = inr (Some n) ->
  capacity < default (position this) offset + n ->
  buffer (snd (write uninit string offset this)) = SNull
  /\ (0 < n -> (exists s, string = VStr s) \/ is_byte_sequence string ->
      (exists m, fst (write uninit string offset this) = inl (TypeError m))
      /\ position (snd (write uninit string offset this)) = position this).
Proof.
  intros Hkind Hcap Hn Hgrow.
  apply Z.ltb_lt in Hgrow.
  destruct this as [st buf pos]. cbn [buffer position] in *.
  destruct buf as [l|l|l|]; try done; simpl in Hcap; injection Hcap as <-;
    destruct string as [|x|[|c s]|[|c s]|[|c s]|[|c s]]; try done;
    simpl in Hn; injection Hn as <-;
    destruct offset as [o|]; run; simpl in Hgrow; rewrite Hgrow; simpl;
    (split; [reflexivity|]); intros Hpos [[s' Hs]|Hseq];
    try done; try lia; eauto.
Qed.

Lemma write_growing_other_store_loses_it_witness :
  buffer (snd (write zero_fill (VStr (lit "ab")) None
                     (Binary zero_fill (VUint8 [1; 2; 3]) None))) = SNull.
Proof.
  exact (proj1 (write_growing_other_store_loses_it zero_fill
                  (Binary zero_fill (VUint8 [1; 2; 3]) None) (VStr (lit "ab")) None
                  3 2 eq_refl eq_refl eq_refl ltac:(simpl; lia))).
Defined.

(** ** What [put] and [write] never do *)

Lemma keeps_sub_type_bind {A B} (m : M A) (k : A -> M B) :
  keeps_sub_type m -> (forall a, keeps_sub_type (k a)) -> keeps_sub_type (bind m k).
Proof.
  intros Hm Hk this. unfold bind. specialize (Hm this).
  destruct (m this) as [[e|a] this']; simpl in *; [done|].
  by rewrite Hk.
Qed.

Lemma keeps_sub_type_ret {A} (a : A) : keeps_sub_type (ret a).
Proof. done. Qed.

Lemma keeps_sub_type_throw {A} (e : exn) : @keeps_sub_type A (throw e).
Proof. done. Qed.

Lemma keeps_sub_type_lift {A} (r : exn + A) : keeps_sub_type (lift r).
Proof. done. Qed.

Lemma keeps_sub_type_get {A} (f : binary -> A) : keeps_sub_type (get f).
Proof. done. Qed.

Lemma keeps_sub_type_set_buffer (st : store) : keeps_sub_type (set_buffer st).
Proof. done. Qed.

Lemma keeps_sub_type_set_position (p : Z) : keeps_sub_type (set_position p).
Proof. done. Qed.

Ltac keeps_sub_type :=
  repeat first
    [ apply keeps_sub_type_ret | apply keeps_sub_type_throw
    | apply keeps_sub_type_lift | apply keeps_sub_type_get
    | apply keeps_sub_type_set_buffer | apply keeps_sub_type_set_position
    | apply keeps_sub_type_bind; [|intros]
    | case_match ].

(** X14.  The subtype is fixed at construction: no [put] and no [write]
    changes it, with whatever arguments and whether the call succeeds or
    raises.  It is the number given as the only argument, else the second
    argument, else 0. *)
Theorem sub_type_never_changes (uninit : Z -> Z) :
  (forall byte_value this,
      sub_type (snd (put uninit byte_value this)) = sub_type this)
  /\ (forall string offset this,
         sub_type (snd (write uninit string offset this)) = sub_type this)
  /\ (forall n subType, sub_type (Binary uninit (VNum n) subType) = n)
  /\ (forall buffer_ t,
         (forall n, buffer_ <> VNum n) ->
         sub_type (Binary uninit buffer_ (Some t)) = t
         /\ sub_type (Binary uninit buffer_ None) = BSON_BINARY_SUBTYPE_DEFAULT).
Proof.
  repeat split.
  - intros byte_value. change (keeps_sub_type (put uninit byte_value)).
    unfold put, assign_at_position. keeps_sub_type.
  - intros string offset. change (keeps_sub_type (write uninit string offset)).
    unfold write, advance_position. keeps_sub_type.
  - by destruct buffer_ as [|n| | | |]; [| destruct (H n) |..].
  - by destruct buffer_ as [|n| | | |]; [| destruct (H n) |..].
Qed.

Lemma sub_type_never_changes_witness :
  sub_type (Binary zero_fill (VBuffer [1]) (Some 4)) = 4.
Proof.
  exact (proj1 (proj2 (proj2 (proj2 (sub_type_never_changes zero_fill)))
                  (VBuffer [1]) 4 ltac:(discriminate))).
Defined.


(** X16.  A Buffer-backed instance stays Buffer-backed, and its capacity
    never shrinks: after any [put] and any [write], with whatever arguments
    and whether the call succeeds or raises, the store is a Buffer at least
    as long as before. *)
Theorem Buffer_capacity_never_shrinks
    (uninit : Z -> Z) (this : binary) (old : list Z) :
  buffer this = SBuffer old ->
  (forall byte_value,
      exists l', buffer (snd (put uninit byte_value this)) = SBuffer l'
                 /\ len old <= len l')
  /\ (forall string offset,
         exists l', buffer (snd (write uninit string offset this)) = SBuffer l'
                    /\ len old <= len l').
Proof.
  intros Hbuf. split.
  - intros byte_value.
    destruct (put_outcome uninit byte_value this)
      as [[e ->]|(a & capacity & st' & _ & Hcap & Hset & ->)]; simpl.
    { exists old. split; [done | lia]. }
    rewrite Hbuf in Hset, Hcap. simpl in Hset.
    destruct (position this <? capacity); simpl in Hset; injection Hset as <-;
      eexists; (split; [reflexivity|]); unfold buf_set;
      destruct (position this <? 0);
      rewrite ?length_insert, ?length_app; lia.
  - intros string offset.
    set (o := match offset with Some x => x | None => position this end).
    assert (forall n, 0 <= n -> len old <= len (write_grown uninit old o n)) as Hgrown.
    { intros n Hn. rewrite length_write_grown by done.
      destruct (len old <? o + n); lia. }
    destruct string as [|n|s|l|l|l]; unfold write;
      unfold bind at 1, get at 1; fold o;
      unfold bind at 1, get at 1; rewrite Hbuf;
      unfold bind at 1, lift at 1; simpl store_length; cbv iota;
      unfold bind at 1, lift at 1; simpl data_length; cbv iota beta;
      try (simpl; rewrite Hbuf; exists old; split; [done | lia]);
      rewrite write_growth_step by (done || lia).
    + destruct (buf_write_binary (write_grown uninit old o (len s)) s o)
        as [e|t] eqn:Ht; run; eexists; (split; [reflexivity|]).
      * apply Hgrown. lia.
      * apply buf_write_binary_length in Ht. specialize (Hgrown (len s)). lia.
    + destruct (buf_copy l (write_grown uninit old o (len l)) o)
        as [e|t] eqn:Ht; run; eexists; (split; [reflexivity|]).
      * apply Hgrown. lia.
      * apply buf_copy_length in Ht. specialize (Hgrown (len l)). lia.
    + run. eexists. split; [reflexivity|]. apply Hgrown. lia.
    + destruct (assign_loop_Buffer_total l (write_grown uninit old o (len l)) o)
        as (l' & Hl' & Hlen').
      run. rewrite Hl'. simpl. exists l'. split; [done|].
      specialize (Hgrown (len l)). lia.
Qed.

Lemma Buffer_capacity_never_shrinks_witness :
  exists l',
    buffer (snd (write zero_fill (VBuffer [9]) (Some (-1))
                       (Binary zero_fill (VBuffer [1; 2; 3]) None))) = SBuffer l'
    /\ 3 <= len l'.
Proof.
  exact (proj2 (Buffer_capacity_never_shrinks zero_fill
                  (Binary zero_fill (VBuffer [1; 2; 3]) None) [1; 2; 3] eq_refl)
           (VBuffer [9]) (Some (-1))).
Defined.

Lemma reachable_position_nonneg_witness :
  0 <= position (snd (write zero_fill (VStr (lit "ab")) (Some 1)
                            (Binary zero_fill VNull None))).
Proof.
  apply (reachable_position_nonneg zero_fill).
  apply reach_write, reach_new.
Defined.

(** ** [toString] *)

Lemma length_hex_encode (l : list Z) : len (hex_encode l) = 2 * len l.
Proof.
  unfold hex_encode. induction l as [|b t IH]; [done|].
  rewrite bind_cons, length_app. simpl length at 1.
  cbn [length]. lia.
Qed.

(** X18.  On a Buffer-backed instance whose position is not negative,
    [toString] encodes the logical content, the bytes below the position,
    and nothing beyond: with 'binary' it is the string [value(false)]
    returns, with 'base64' it decodes to those bytes, with 'hex' it has two
    characters per byte.  It agrees with [toJSON] when the position has
    reached the capacity. *)
Theorem toString_encodes_logical_content (this : binary) (l : list Z) :
  buffer this = SBuffer l ->
  0 <= position this ->
  value this None = inr (RStr (toString this EncBinary))
  /\ toString this EncBinary = take (Z.to_nat (position this)) l
  /\ (is_bytes l ->
      base64_decode (toString this EncBase64) = take (Z.to_nat (position this)) l)
  /\ len (toString this EncHex) = 2 * Z.min (position this) (len l)
  /\ (len l <= position this -> toString this EncBase64 = toJSON this).
Proof.
  intros Hbuf Hpos. unfold toString, value, toJSON, buf_toString_binary.
  rewrite Hbuf. simpl. rewrite slice_prefix by done.
  repeat split.
  - intros Hl. apply base64_decode_encode. by apply Forall_take.
  - rewrite length_hex_encode, length_take. lia.
  - intros Hfull. by rewrite take_ge by lia.
Qed.

Lemma toString_encodes_logical_content_witness :
  toString (snd (put zero_fill (VNum 65) (Binary zero_fill VNull None))) EncBinary
  = lit "A".
Proof.
  exact (proj1 (proj2 (toString_encodes_logical_content
                         (snd (put zero_fill (VNum 65) (Binary zero_fill VNull None)))
                         (65 :: alloc zero_fill 255)
                         eq_refl ltac:(vm_compute; discriminate)))).
Defined.

(** ** Growth of a store that is not a Buffer *)

(** X19.  [put] of a number up to 255 on a full instance whose store is a
    Uint8Array or an Array replaces the store by a plain Array of 256 more
    slots: the old elements, then the number as it was given (not reduced
    modulo 256), then 255 holes. *)
Theorem put_on_full_other_store_makes_Array
    (uninit : Z -> Z) (this : binary) (capacity n : Z) :
  isBuffer (buffer this) = false ->
  store_length (buffer this) = inr capacity ->
  position this = capacity ->
  n <= 255 ->
  put uninit (VNum n) this
  = (inr tt,
     mkBinary (sub_type this)
              (SArray (store_elems (buffer this)
                         ++ Some n :: replicate (Z.to_nat (BUFFER_SIZE - 1)) None))
              (capacity + 1)).
Proof.
  intros Hkind Hcap Hpos Hn.
  assert (rejected_by_range_check (ArgNum n) = false) as Hr.
  { unfold rejected_by_range_check. simpl. apply Z.ltb_ge. lia. }
  destruct (put_accepted uninit (VNum n) (ArgNum n) this capacity eq_refl Hr Hcap)
    as (st' & Hset & ->).
  rewrite Hpos in *. rewrite Z.ltb_irrefl in Hset.
  assert (put_grown uninit (buffer this)
          = SArray (store_elems (buffer this)
                      ++ replicate (Z.to_nat BUFFER_SIZE) None)
          /\ len (store_elems (buffer this)) = capacity) as [Hgrown Hlen].
  { destruct (buffer this) as [l|l|l|]; simpl in *; try done;
      injection Hcap as <-; by rewrite ?length_fmap. }
  rewrite Hgrown in Hset. cbn [store_set decode_byte] in Hset.
  injection Hset as <-. do 3 f_equal.
  unfold arr_set. pose proof BUFFER_SIZE_eq as HB.
  destruct (Z.ltb_spec capacity 0); [lia|].
  rewrite length_app, length_replicate.
  destruct (Z.ltb_spec capacity (Z.of_nat (length (store_elems (buffer this))
                                           + Z.to_nat BUFFER_SIZE))); [|lia].
  rewrite insert_app_r_alt by lia.
  replace (Z.to_nat capacity - length (store_elems (buffer this)))%nat
    with 0%nat by lia.
  replace (Z.to_nat BUFFER_SIZE) with (S (Z.to_nat (BUFFER_SIZE - 1))) by lia.
  reflexivity.
Qed.

Lemma put_on_full_other_store_makes_Array_witness :
  fst (put zero_fill (VNum (-3)) (Binary zero_fill (VUint8 [1; 2]) None)) = inr tt.
Proof.
  exact (f_equal fst
           (put_on_full_other_store_makes_Array zero_fill
              (Binary zero_fill (VUint8 [1; 2]) None) 2 (-3)
              eq_refl eq_refl eq_refl ltac:(lia))).
Defined.

(** ** [write] of a string into a Buffer *)

(** X20.  On a Buffer-backed instance, [write] of a string always raises a
    TypeError, from the call of line 155.  The position and the subtype stay
    as they were; the store is still a Buffer that begins with the old
    bytes, grown by the length of the string when [offset + string.length]
    exceeded the capacity, for lines 131-148 have run by then.  When the
    position was within the capacity, [value(false)] returns what it
    returned before. *)
Theorem write_string_into_Buffer_raises
    (uninit : Z -> Z) (this : binary) (old : list Z) (s : jsstring)
    (offset : option Z) :
  buffer this = SBuffer old ->
  (exists m, fst (write uninit (VStr s) offset this) = inl (TypeError m))
  /\ position (snd (write uninit (VStr s) offset this)) = position this
  /\ sub_type (snd (write uninit (VStr s) offset this)) = sub_type this
  /\ (exists l',
         buffer (snd (write uninit (VStr s) offset this)) = SBuffer l'
         /\ take (length old) l' = old
         /\ len l' = if len old <? default (position this) offset + len s
                     then len old + len s else len old)
  /\ (0 <= position this <= len old ->
      value (snd (write uninit (VStr s) offset this)) None = value this None).
Proof.
  intros Hbuf.
  set (o := default (position this) offset).
  assert (match offset with Some x => x | None => position this end = o) as Ho
    by (by destruct offset).
  assert (write uninit (VStr s) offset this
          = (inl (TypeError "The offset argument must be of type number"),
             mkBinary (sub_type this)
                      (SBuffer (write_grown uninit old o (len s)))
                      (position this))) as ->.
  { unfold write. unfold bind at 1, get at 1. rewrite Ho.
    unfold bind at 1, get at 1. rewrite Hbuf.
    unfold bind at 1, lift at 1. simpl store_length. cbv iota.
    unfold bind at 1, lift at 1. simpl data_length. cbv iota beta.
    rewrite write_growth_step by (done || lia). reflexivity. }
  cbn [fst snd position sub_type buffer].
  repeat split.
  - eauto.
  - eexists. split; [reflexivity|]. split.
    + rewrite take_write_grown by lia. by apply take_ge.
    + apply length_write_grown. lia.
  - intros Hpos. unfold value, buf_toString_binary. rewrite Hbuf.
    cbn [buffer position]. by rewrite take_write_grown by lia.
Qed.

Lemma write_string_into_Buffer_raises_witness :
  position (snd (write zero_fill (VStr (lit "go")) None
                       (Binary zero_fill (VBuffer [1; 2; 3]) None))) = 3.
Proof.
  exact (proj1 (proj2 (write_string_into_Buffer_raises zero_fill
                         (Binary zero_fill (VBuffer [1; 2; 3]) None)
                         [1; 2; 3] (lit "go") None eq_refl))).
Defined.
